(** * Provider registry, model routing and API-key rotation

    A shallow embedding of [src/llms/src/services/provider.ts]
    (classes [ApiKeySelector] and [ProviderService]) and of the Gemini
    transformer's [transformRequestIn], followed by the properties
    established about them.

    Conventions of the embedding:
    - a JavaScript [number] used as an index is a [Z]; the remainder
      operator [%] is [Z.rem]; sums are exact, as they are in the
      source for integers up to [2 ^ 53];
    - [undefined] is [None];
    - a [throw] is the [Throw] constructor of [Result];
    - the two [Map]s that are only read and written by key
      ([modelRoutes], [keySelectors]) are [gmap]s; [providers], whose
      iteration order is observable through [getAvailableModelNames], is
      an insertion-ordered association list ([JsMap]);
    - [Math.random()] is an explicit argument, an exact rational in
      the interval [0,1). *)

From Stdlib Require Import ZArith QArith Qround Lia Ascii.
From stdpp Require Import base option list strings gmap fin_maps.

Local Open Scope Z_scope.

(** ** Errors and results *)

(** The two [Error]s thrown by the service, named after their role, and
    a failure coming from a collaborator outside these sources. *)
Inductive Error : Type :=
| NoKeysAvailable                          (* 'No API keys available' *)
| UnknownProvider (providerName : string)  (* `No key selector found for provider: ${providerName}` *)
| ExternalError (message : string).

Inductive Result (A : Type) : Type :=
| Ok (value : A)
| Throw (error : Error).
Arguments Ok {A} value.
Arguments Throw {A} error.

(** ** JavaScript primitives used by the source *)

(** [arr[i]] for a number [i]: [undefined] outside the array. *)
Definition js_index {A : Type} (arr : list A) (i : Z) : option A :=
  if bool_decide (0 ≤ i) then arr !! Z.to_nat i else None.

(** [Math.floor(Math.random() * len)], the draw being [rnd]. *)
Definition random_index (rnd : Q) (len : nat) : Z :=
  Qfloor (rnd * inject_Z (Z.of_nat len))%Q.

(** The template [`${a},${b}`]. *)
Definition comma_join (a b : string) : string :=
  (a +:+ "," +:+ b)%string.

(** How a template renders a possibly [undefined] string. *)
Definition template_string (v : option string) : string :=
  default "undefined"%string v.

(** A JavaScript [Map] with string keys, as far as iteration order is
    concerned: [set] on a present key keeps its position, on a new key
    appends; [delete] removes the entry. *)
Module JsMap.

Definition t (V : Type) : Type := list (string * V).

Definition empty {V : Type} : t V := [].

Fixpoint get {V : Type} (k : string) (m : t V) : option V :=
  match m with
  | [] => None
  | (k', v) :: m' => if String.eqb k k' then Some v else get k m'
  end.

Fixpoint set {V : Type} (k : string) (v : V) (m : t V) : t V :=
  match m with
  | [] => [(k, v)]
  | (k', v') :: m' =>
      if String.eqb k k' then (k, v) :: m' else (k', v') :: set k v m'
  end.

Fixpoint delete {V : Type} (k : string) (m : t V) : t V :=
  match m with
  | [] => []
  | (k', v') :: m' =>
      if String.eqb k k' then delete k m' else (k', v') :: delete k m'
  end.

Definition values {V : Type} (m : t V) : list V := m.*2.

End JsMap.

(** ** ApiKeySelector *)

Inductive ApiKeyStrategy : Type := RoundRobin | Random | Failover.

Module ApiKeySelector.

Record t : Type := mk {
  currentIndex : Z;
  strategy : ApiKeyStrategy;
  keys : list string;
}.

(** [constructor(keys, strategy = 'round-robin')]; [currentIndex = 0]. *)
Definition new (keys : list string) (strategy : option ApiKeyStrategy) : t :=
  mk 0 (default RoundRobin strategy) keys.

(** The object [{ key, index }] returned by [selectKey]. *)
Record Selected : Type := mkSelected {
  key : option string;
  index : option Z;
}.

Definition with_currentIndex (this : t) (i : Z) : t :=
  mk i (strategy this) (keys this).

(** The indices pushed by the loop of the [random] branch. *)
Definition availableIndices (len : nat) (excludeIndex : Z) : list Z :=
  filter (λ i, i ≠ excludeIndex) (Z.of_nat <$> seq 0 len).

(** [selectKey(excludeIndex = -1)]; returns the selection and the
    selector after the call. *)
Definition selectKey (this : t) (excludeIndex_arg : option Z) (rnd : Q)
  : Result (Selected * t) :=
  let excludeIndex := default (-1) excludeIndex_arg in
  let len := Z.of_nat (length (keys this)) in
  if bool_decide (len = 0) then Throw NoKeysAvailable
  else if bool_decide (len = 1) then
    Ok (mkSelected (js_index (keys this) 0) (Some 0), this)
  else
    match strategy this with
    | Random =>
        let selectedIndex :=
          if bool_decide (0 ≤ excludeIndex) && bool_decide (1 < len) then
            let available := availableIndices (length (keys this)) excludeIndex in
            js_index available (random_index rnd (length available))
          else
            Some (random_index rnd (length (keys this))) in
        Ok (mkSelected (selectedIndex ≫= js_index (keys this)) selectedIndex,
            this)
    | Failover =>
        if bool_decide (0 ≤ excludeIndex) then
          let selectedIndex := Z.rem (excludeIndex + 1) len in
          Ok (mkSelected (js_index (keys this) selectedIndex) (Some selectedIndex),
              with_currentIndex this selectedIndex)
        else
          let selectedIndex := currentIndex this in
          Ok (mkSelected (js_index (keys this) selectedIndex) (Some selectedIndex),
              this)
    | RoundRobin =>
        if bool_decide (0 ≤ excludeIndex) then
          let selectedIndex := Z.rem (excludeIndex + 1) len in
          Ok (mkSelected (js_index (keys this) selectedIndex) (Some selectedIndex),
              this)
        else
          let selectedIndex := currentIndex this in
          Ok (mkSelected (js_index (keys this) selectedIndex) (Some selectedIndex),
              with_currentIndex this (Z.rem (currentIndex this + 1) len))
    end.

Definition getKeyCount (this : t) : nat := length (keys this).

End ApiKeySelector.

(** ** Records of [types/llm] *)

(** The object stored under a provider's [transformer] key and the raw
    configuration it is built from.  Both belong to the
    TransformerService; the registry stores and copies them without
    looking inside. *)
Inductive Transformer : Type := TransformerObject (handle : nat).
Inductive TransformerConfig : Type := TransformerConfigValue (json : string).

(** [provider.apiKey] is an array in the registry; the Gemini
    transformer also accepts a single string. *)
Inductive ApiKeyValue : Type :=
| SingleKey (k : string)
| KeyList (ks : list string).

Module RegisterProviderRequest.
Record t : Type := mk {
  name : string;
  baseUrl : string;
  apiKey : list string;
  apiKeyStrategy : option ApiKeyStrategy;
  models : list string;
  transformer : option Transformer;
}.
End RegisterProviderRequest.

Module LLMProvider.
(** [id] is read by [updateProvider] and [updatedAt] is written by it;
    neither is set by registration. *)
Record t : Type := mk {
  id : option string;
  name : string;
  baseUrl : string;
  apiKey : ApiKeyValue;
  apiKeyStrategy : option ApiKeyStrategy;
  models : list string;
  transformer : option Transformer;
  updatedAt : option Z;
}.

(** [{ ...request }] *)
Definition of_request (request : RegisterProviderRequest.t) : t :=
  mk None
     (RegisterProviderRequest.name request)
     (RegisterProviderRequest.baseUrl request)
     (KeyList (RegisterProviderRequest.apiKey request))
     (RegisterProviderRequest.apiKeyStrategy request)
     (RegisterProviderRequest.models request)
     (RegisterProviderRequest.transformer request)
     None.
End LLMProvider.

(** [Partial<LLMProvider>]: a field is [None] when the update does not
    carry it. *)
Module ProviderUpdate.
Record t : Type := mk {
  id : option string;
  name : option string;
  baseUrl : option string;
  apiKey : option ApiKeyValue;
  apiKeyStrategy : option ApiKeyStrategy;
  models : option (list string);
  transformer : option Transformer;
}.

Definition none : t := mk None None None None None None None.

(** [{ ...provider, ...updates, updatedAt: new Date() }] *)
Definition apply (provider : LLMProvider.t) (updates : t) (now : Z)
  : LLMProvider.t :=
  LLMProvider.mk
    (match id updates with Some i => Some i | None => LLMProvider.id provider end)
    (default (LLMProvider.name provider) (name updates))
    (default (LLMProvider.baseUrl provider) (baseUrl updates))
    (default (LLMProvider.apiKey provider) (apiKey updates))
    (match apiKeyStrategy updates with
     | Some s => Some s | None => LLMProvider.apiKeyStrategy provider end)
    (default (LLMProvider.models provider) (models updates))
    (match transformer updates with
     | Some x => Some x | None => LLMProvider.transformer provider end)
    (Some now).
End ProviderUpdate.

Module ModelRoute.
Record t : Type := mk {
  provider : string;
  model : string;
  fullModel : string;
}.
End ModelRoute.

Module RequestRouteInfo.
Record t : Type := mk {
  provider : LLMProvider.t;
  originalModel : string;
  targetModel : string;
}.
End RequestRouteInfo.

(** An entry of the [providers] configuration array.  [api_key] is an
    arbitrary JSON value as far as the checks of
    [initializeFromProvidersArray] distinguish them. *)
Inductive ConfigApiKey : Type :=
| ConfigKeyMissing
| ConfigKeyString (s : string)
| ConfigKeyArray (ks : list string).

Module ConfigProvider.
Record t : Type := mk {
  name : option string;
  api_base_url : option string;
  api_key : ConfigApiKey;
  api_key_strategy : option ApiKeyStrategy;
  models : option (list string);
  transformer : option TransformerConfig;
}.
End ConfigProvider.

(** ** ProviderService *)

Inductive LogEntry : Type :=
| LogWarn (name : option string)
    (* `Invalid provider config for ${name}: api_key must be a non-empty array` *)
| LogInfo (name : string) (keyCount : nat) (strategy : ApiKeyStrategy)
    (* `${name} provider registered with ${n} API key(s), strategy: ${s}` *)
| LogError (name : option string) (error : Error).
    (* `${name} provider registered error: ${error}` *)

Module ProviderService.

Record t : Type := mk {
  providers : JsMap.t LLMProvider.t;
  modelRoutes : gmap string ModelRoute.t;
  keySelectors : gmap string ApiKeySelector.t;
}.

Definition empty : t := mk JsMap.empty ∅ ∅.

(** The body of the insertion loop shared by [registerProvider] and
    [updateProvider]: the qualified entry is always written, the bare
    entry only when the table has none. *)
Definition insertRoute (providerName : string)
  (routes : gmap string ModelRoute.t) (model : string)
  : gmap string ModelRoute.t :=
  let fullModel := comma_join providerName model in
  let route := ModelRoute.mk providerName model fullModel in
  let routes := <[fullModel := route]> routes in
  if bool_decide (is_Some (routes !! model)) then routes
  else <[model := route]> routes.

Definition insertRoutes (providerName : string) (models : list string)
  (routes : gmap string ModelRoute.t) : gmap string ModelRoute.t :=
  foldl (insertRoute providerName) routes models.

(** The body of the deletion loops of [updateProvider] and
    [deleteProvider]; [prefix] is the rendered left part of
    [fullModel]. *)
Definition deleteRoute (prefix : string)
  (routes : gmap string ModelRoute.t) (model : string)
  : gmap string ModelRoute.t :=
  delete model (delete (comma_join prefix model) routes).

Definition deleteRoutes (prefix : string) (models : list string)
  (routes : gmap string ModelRoute.t) : gmap string ModelRoute.t :=
  foldl (deleteRoute prefix) routes models.

Definition registerProvider (this : t) (request : RegisterProviderRequest.t)
  : LLMProvider.t * t :=
  let provider := LLMProvider.of_request request in
  let providers' := JsMap.set (LLMProvider.name provider) provider (providers this) in
  let selector :=
    ApiKeySelector.new (RegisterProviderRequest.apiKey request)
      (Some (default RoundRobin (LLMProvider.apiKeyStrategy provider))) in
  let keySelectors' := <[LLMProvider.name provider := selector]> (keySelectors this) in
  let modelRoutes' :=
    insertRoutes (LLMProvider.name provider)
      (RegisterProviderRequest.models request) (modelRoutes this) in
  (provider, mk providers' modelRoutes' keySelectors').

(** [selectApiKey(providerName, excludeIndex = -1)].  The selector is a
    shared object: the cursor it advances is written back. *)
Definition selectApiKey (this : t) (providerName : string)
  (excludeIndex : option Z) (rnd : Q)
  : Result (ApiKeySelector.Selected * t) :=
  match keySelectors this !! providerName with
  | None => Throw (UnknownProvider providerName)
  | Some selector =>
      match ApiKeySelector.selectKey selector
              (Some (default (-1) excludeIndex)) rnd with
      | Throw e => Throw e
      | Ok (selected, selector') =>
          Ok (selected,
              mk (providers this) (modelRoutes this)
                 (<[providerName := selector']> (keySelectors this)))
      end
  end.

Definition getApiKeyCount (this : t) (providerName : string) : nat :=
  match keySelectors this !! providerName with
  | None => 0%nat
  | Some selector => ApiKeySelector.getKeyCount selector
  end.

Definition getProviders (this : t) : list LLMProvider.t :=
  JsMap.values (providers this).

Definition getProvider (this : t) (name : string) : option LLMProvider.t :=
  JsMap.get name (providers this).

(** [updateProvider(id, updates)]; [now] is the value of [new Date()].
    [None] is the [null] result. *)
Definition updateProvider (this : t) (id : string)
  (updates : ProviderUpdate.t) (now : Z) : option LLMProvider.t * t :=
  match JsMap.get id (providers this) with
  | None => (None, this)
  | Some provider =>
      let updatedProvider := ProviderUpdate.apply provider updates now in
      let providers' := JsMap.set id updatedProvider (providers this) in
      let modelRoutes' :=
        match ProviderUpdate.models updates with
        | Some newModels =>
            insertRoutes (LLMProvider.name provider) newModels
              (deleteRoutes (template_string (LLMProvider.id provider))
                 (LLMProvider.models provider) (modelRoutes this))
        | None => modelRoutes this
        end in
      (Some updatedProvider, mk providers' modelRoutes' (keySelectors this))
  end.

Definition deleteProvider (this : t) (id : string) : bool * t :=
  match JsMap.get id (providers this) with
  | None => (false, this)
  | Some provider =>
      let modelRoutes' :=
        deleteRoutes (LLMProvider.name provider) (LLMProvider.models provider)
          (modelRoutes this) in
      (true, mk (JsMap.delete id (providers this)) modelRoutes' (keySelectors this))
  end.

Definition toggleProvider (this : t) (name : string) (enabled : bool) : bool :=
  match JsMap.get name (providers this) with
  | None => false
  | Some _ => true
  end.

Definition resolveModelRoute (this : t) (modelName : string)
  : option RequestRouteInfo.t :=
  match modelRoutes this !! modelName with
  | None => None
  | Some route =>
      match JsMap.get (ModelRoute.provider route) (providers this) with
      | None => None
      | Some provider =>
          Some (RequestRouteInfo.mk provider modelName (ModelRoute.model route))
      end
  end.

Definition getAvailableModelNames (this : t) : list string :=
  flat_map
    (λ provider,
       flat_map (λ model, [model; comma_join (LLMProvider.name provider) model])
         (LLMProvider.models provider))
    (JsMap.values (providers this)).

(** [!providerConfig.name || !providerConfig.api_base_url ||
     !providerConfig.api_key || !Array.isArray(providerConfig.api_key) ||
     providerConfig.api_key.length === 0]; an empty string is falsy.
    Returns the three checked fields when the entry passes. *)
Definition truthy_string (v : option string) : option string :=
  match v with
  | Some s => if bool_decide (s = ""%string) then None else Some s
  | None => None
  end.

Definition checkedConfig (providerConfig : ConfigProvider.t)
  : option (string * string * list string) :=
  match truthy_string (ConfigProvider.name providerConfig),
        truthy_string (ConfigProvider.api_base_url providerConfig),
        ConfigProvider.api_key providerConfig with
  | Some name, Some api_base_url, ConfigKeyArray (k :: ks) =>
      Some (name, api_base_url, k :: ks)
  | _, _, _ => None
  end.

(** One iteration of the [forEach] of [initializeFromProvidersArray].
    [buildTransformer] stands for the construction of the [transformer]
    object through [TransformerService.getTransformer]; it may throw,
    and the [catch] turns that into an error log. *)
Definition initializeOne
  (buildTransformer : TransformerConfig → Result Transformer)
  (acc : t * list LogEntry) (providerConfig : ConfigProvider.t)
  : t * list LogEntry :=
  let '(this, log) := acc in
  match checkedConfig providerConfig with
  | None => (this, log ++ [LogWarn (ConfigProvider.name providerConfig)])
  | Some (name, api_base_url, api_key) =>
      let built :=
        match ConfigProvider.transformer providerConfig with
        | None => Ok None
        | Some cfg =>
            match buildTransformer cfg with
            | Ok tr => Ok (Some tr)
            | Throw e => Throw e
            end
        end in
      match built with
      | Throw e => (this, log ++ [LogError (ConfigProvider.name providerConfig) e])
      | Ok transformer =>
          let strategy :=
            default RoundRobin (ConfigProvider.api_key_strategy providerConfig) in
          let request :=
            RegisterProviderRequest.mk name api_base_url api_key (Some strategy)
              (default [] (ConfigProvider.models providerConfig)) transformer in
          ((registerProvider this request).2,
           log ++ [LogInfo name (length api_key) strategy])
      end
  end.

Definition initializeFromProvidersArray
  (buildTransformer : TransformerConfig → Result Transformer)
  (this : t) (providersConfig : list ConfigProvider.t) : t * list LogEntry :=
  foldl (initializeOne buildTransformer) (this, []) providersConfig.

End ProviderService.

(** ** GeminiTransformer *)

Module GeminiTransformer.
Section WithCollaborators.

(** What lies outside these sources: the unified request type (only
    [model] and [stream] are read here), [buildRequestBody] of
    [utils/gemini.util], and the platform's [URL] constructor
    [new URL(relative, base)]; the last two may throw. *)
Variable UnifiedChatRequest : Type.
Variable model : UnifiedChatRequest → string.
Variable stream : UnifiedChatRequest → option bool.
Variable Body : Type.
Variable buildRequestBody : UnifiedChatRequest → Result Body.
Variable URL : Type.
Variable URL_new : string → string → Result URL.

Definition name : string := "gemini".
Definition endPoint : string := "/v1beta/models/:modelAndAction".

(** The [config] object; a header set to [undefined] has value [None]. *)
Record RequestConfig : Type := mkConfig {
  url : URL;
  headers : JsMap.t (option string);
}.

Record TransformedRequest : Type := mkRequest {
  body : Body;
  config : RequestConfig;
}.

(** [request.stream ? "streamGenerateContent?alt=sse" : "generateContent"] *)
Definition action (request : UnifiedChatRequest) : string :=
  match stream request with
  | Some true => "streamGenerateContent?alt=sse"
  | _ => "generateContent"
  end.

(** [`./${request.model}:${action}`] *)
Definition relativeUrl (request : UnifiedChatRequest) : string :=
  ("./" +:+ model request +:+ ":" +:+ action request)%string.

(** [Array.isArray(provider.apiKey) ? provider.apiKey[0] : provider.apiKey] *)
Definition firstApiKey (provider : LLMProvider.t) : option string :=
  match LLMProvider.apiKey provider with
  | KeyList ks => js_index ks 0
  | SingleKey k => Some k
  end.

Definition transformRequestIn (request : UnifiedChatRequest)
  (provider : LLMProvider.t) : Result TransformedRequest :=
  let apiKey := firstApiKey provider in
  match buildRequestBody request with
  | Throw e => Throw e
  | Ok b =>
      match URL_new (relativeUrl request) (LLMProvider.baseUrl provider) with
      | Throw e => Throw e
      | Ok u =>
          Ok (mkRequest b
                (mkConfig u [("x-goog-api-key"%string, apiKey);
                             ("Authorization"%string, None)]))
      end
  end.

End WithCollaborators.
End GeminiTransformer.

(** ** Call sequences used in the statements *)

(** Successive [selectKey] calls on one selector, each with its
    [excludeIndex] argument and its random draw. *)
Fixpoint selectKeys (this : ApiKeySelector.t) (calls : list (option Z * Q))
  : Result (list ApiKeySelector.Selected * ApiKeySelector.t) :=
  match calls with
  | [] => Ok ([], this)
  | (excludeIndex, rnd) :: calls' =>
      match ApiKeySelector.selectKey this excludeIndex rnd with
      | Throw e => Throw e
      | Ok (selected, this') =>
          match selectKeys this' calls' with
          | Throw e => Throw e
          | Ok (rest, this'') => Ok (selected :: rest, this'')
          end
      end
  end.

(** The selectors that exist at run time: [currentIndex] is private, so
    a selector is what its constructor made, possibly after some
    [selectKey] calls. *)
Inductive reachable : ApiKeySelector.t → Prop :=
| reachable_new keys strategy :
    reachable (ApiKeySelector.new keys strategy)
| reachable_selectKey this excludeIndex rnd selected this' :
    reachable this →
    ApiKeySelector.selectKey this excludeIndex rnd = Ok (selected, this') →
    reachable this'.

(** Successive [registerProvider] calls. *)
Definition registerAll (this : ProviderService.t)
  (requests : list RegisterProviderRequest.t) : ProviderService.t :=
  foldl (λ s request, (ProviderService.registerProvider s request).2)
    this requests.

(** A string without the separator of qualified model names. *)
Fixpoint no_comma (s : string) : bool :=
  match s with
  | EmptyString => true
  | String c s' => if Ascii.eqb c ","%char then false else no_comma s'
  end.

(** The configuration entries that registration is to refuse: no name,
    no base URL, or an [api_key] that is not a non-empty array. *)
Definition invalidConfig (c : ConfigProvider.t) : Prop :=
  ConfigProvider.name c = None ∨ ConfigProvider.name c = Some ""%string ∨
  ConfigProvider.api_base_url c = None ∨
  ConfigProvider.api_base_url c = Some ""%string ∨
  match ConfigProvider.api_key c with
  | ConfigKeyArray (_ :: _) => False
  | _ => True
  end.

(** Every stored provider has a non-empty key array, and its selector
    works on that array. *)
Definition keys_nonempty (s : ProviderService.t) : Prop :=
  ∀ n p, ProviderService.getProvider s n = Some p →
    ∃ k ks sel,
      LLMProvider.apiKey p = KeyList (k :: ks) ∧
      ProviderService.keySelectors s !! n = Some sel ∧
      ApiKeySelector.keys sel = k :: ks.

(** The route object built for [model] of provider [providerName]. *)
Definition routeOf (providerName model : string) : ModelRoute.t :=
  ModelRoute.mk providerName model (comma_join providerName model).

(** ** Inputs of the worked scenarios *)

Module Scenario.

Definition request (name : string) (apiKey models : list string)
  : RegisterProviderRequest.t :=
  RegisterProviderRequest.mk name "https://api.example/v1/" apiKey None
    models None.

(** [{ models: newModels }] *)
Definition models_update (newModels : list string) : ProviderUpdate.t :=
  ProviderUpdate.mk None None None None None (Some newModels) None.

Definition registered (requests : list RegisterProviderRequest.t)
  : ProviderService.t :=
  registerAll ProviderService.empty requests.

(** One name registered twice with different model lists. *)
Definition reregistered : ProviderService.t :=
  registered [request "p" ["k1"] ["old"; "kept"];
              request "p" ["k2"] ["kept"; "new"]].

(** Two providers serving the same model, [A] registered first. *)
Definition shared : ProviderService.t :=
  registered [request "A" ["a1"; "a2"] ["chat"];
              request "B" ["b1"] ["chat"]].

(** ... then [updateProvider("B", { models: ["chat"] })]. *)
Definition shared_after_update : ProviderService.t :=
  (ProviderService.updateProvider shared "B" (models_update ["chat"]) 0).2.

(** Two providers serving [m1], [Q] registered first, then
    [updateProvider("P", { models: ["m2"] })]. *)
Definition both_m1 : ProviderService.t :=
  registered [request "Q" ["q1"] ["m1"]; request "P" ["p1"] ["m1"]].

Definition both_m1_after_update : ProviderService.t :=
  (ProviderService.updateProvider both_m1 "P" (models_update ["m2"]) 0).2.

(** As [both_m1], [Q] serving a second model as well. *)
Definition both_m1_and_other : ProviderService.t :=
  registered [request "Q" ["q1"] ["m1"; "other"]; request "P" ["p1"] ["m1"]].

Definition both_m1_and_other_after_update : ProviderService.t :=
  (ProviderService.updateProvider both_m1_and_other "P"
     (models_update ["m2"]) 0).2.

(** A single provider, registered and then deleted. *)
Definition single : ProviderService.t :=
  registered [request "P" ["k1"; "k2"] ["m"]].

Definition single_deleted : ProviderService.t :=
  (ProviderService.deleteProvider single "P").2.

(** A registration request without base URL and without keys. *)
Definition keyless : RegisterProviderRequest.t :=
  RegisterProviderRequest.mk "p" "" [] None ["m"] None.

(** A configuration array whose middle entry has an empty key list. *)
Definition config (name : string) (api_key : ConfigApiKey)
  : ConfigProvider.t :=
  ConfigProvider.mk (Some name) (Some "https://api.example/v1/"%string)
    api_key None (Some [name +:+ "-model"]%string) None.

Definition mixed_configs : list ConfigProvider.t :=
  [config "a" (ConfigKeyArray ["a1"]%string);
   config "bad" (ConfigKeyArray []);
   config "b" (ConfigKeyArray ["b1"; "b2"]%string)].

End Scenario.

(** ** Further operations of the service *)

(** An element of the [data] array of [getAvailableModels]. *)
Module ModelInfo.
Record t : Type := mk {
  id : string;
  object : string;
  owned_by : string;
  provider : string;
}.
End ModelInfo.

(** [getAvailableModels()]: the [data] array; the [object] field of the
    result is the constant ["list"]. *)
Definition getAvailableModels (this : ProviderService.t) : list ModelInfo.t :=
  flat_map
    (λ provider,
       flat_map
         (λ model,
            [ModelInfo.mk model "model" (LLMProvider.name provider)
               (LLMProvider.name provider);
             ModelInfo.mk (comma_join (LLMProvider.name provider) model) "model"
               (LLMProvider.name provider) (LLMProvider.name provider)])
         (LLMProvider.models provider))
    (JsMap.values (ProviderService.providers this)).

(** The constructor: the three maps start empty and
    [initializeCustomProviders] runs [initializeFromProvidersArray] when
    the configuration has a [providers] array ([None]: no such key, or
    not an array). *)
Definition newProviderService
  (buildTransformer : TransformerConfig → Result Transformer)
  (providersConfig : option (list ConfigProvider.t))
  : ProviderService.t * list LogEntry :=
  match providersConfig with
  | Some configs =>
      ProviderService.initializeFromProvidersArray buildTransformer
        ProviderService.empty configs
  | None => (ProviderService.empty, [])
  end.

(** The request that [initializeFromProvidersArray] passes to
    [registerProvider] for a configuration entry, when it gets that
    far. *)
Definition acceptedRequest
  (buildTransformer : TransformerConfig → Result Transformer)
  (c : ConfigProvider.t) : option RegisterProviderRequest.t :=
  match ProviderService.checkedConfig c with
  | None => None
  | Some (name, api_base_url, api_key) =>
      let strategy := default RoundRobin (ConfigProvider.api_key_strategy c) in
      let models := default [] (ConfigProvider.models c) in
      match ConfigProvider.transformer c with
      | None =>
          Some (RegisterProviderRequest.mk name api_base_url api_key
                  (Some strategy) models None)
      | Some cfg =>
          match buildTransformer cfg with
          | Ok tr =>
              Some (RegisterProviderRequest.mk name api_base_url api_key
                      (Some strategy) models (Some tr))
          | Throw _ => None
          end
      end
  end.

(** The states a service can be in: what the constructor leaves, after
    any calls of the public methods that change state. *)
Inductive service_reachable : ProviderService.t → Prop :=
| reachable_empty : service_reachable ProviderService.empty
| reachable_register this request :
    service_reachable this →
    service_reachable (ProviderService.registerProvider this request).2
| reachable_update this id updates now :
    service_reachable this →
    service_reachable (ProviderService.updateProvider this id updates now).2
| reachable_delete this id :
    service_reachable this →
    service_reachable (ProviderService.deleteProvider this id).2
| reachable_select this providerName excludeIndex rnd selected this' :
    service_reachable this →
    ProviderService.selectApiKey this providerName excludeIndex rnd =
      Ok (selected, this') →
    service_reachable this'.

(** A route entry is well formed under key [k]: its [fullModel] is the
    qualified name of its [provider] and [model], and [k] is its bare
    or its qualified name. *)
Definition route_wf (k : string) (r : ModelRoute.t) : Prop :=
  ModelRoute.fullModel r = comma_join (ModelRoute.provider r) (ModelRoute.model r) ∧
  (k = ModelRoute.model r ∨ k = ModelRoute.fullModel r).

(** ** parseTransformerConfig *)

(** The values [parseTransformerConfig] tells apart, for configuration
    payloads of type [C]: a falsy value, an array whose items are a
    name or a [[name, config]] array (the [config] possibly missing),
    and anything else. *)
Inductive TransformerItem (C : Type) : Type :=
| ItemName (name : string)
| ItemPair (name : string) (config : option C).
Arguments ItemName {C} name.
Arguments ItemPair {C} name config.

Inductive RawTransformerConfig (C : Type) : Type :=
| RawFalsy
| RawArray (items : list (TransformerItem C))
| RawOther (value : C).
Arguments RawFalsy {C}.
Arguments RawArray {C} items.
Arguments RawOther {C} value.

(** A value stored in the accumulator: the empty object literal or a
    given configuration. *)
Inductive ItemConfig (C : Type) : Type :=
| EmptyObject
| GivenConfig (config : C).
Arguments EmptyObject {C}.
Arguments GivenConfig {C} config.

Inductive ParsedTransformerConfig (C : Type) : Type :=
| ParsedObject (entries : gmap string (ItemConfig C))
| ParsedAsIs (value : C).
Arguments ParsedObject {C} entries.
Arguments ParsedAsIs {C} value.

(** The callback of the [reduce].  The accumulator is a plain object
    used as a map; the embedding holds for every name but
    ["__proto__"], which an assignment to a plain object does not
    store as a key. *)
Definition parseItem {C : Type} (acc : gmap string (ItemConfig C))
  (item : TransformerItem C) : gmap string (ItemConfig C) :=
  match item with
  | ItemPair name (Some config) => <[name := GivenConfig config]> acc
  | ItemPair name None => <[name := EmptyObject]> acc
  | ItemName name => <[name := EmptyObject]> acc
  end.

Definition parseTransformerConfig {C : Type}
  (transformerConfig : RawTransformerConfig C) : ParsedTransformerConfig C :=
  match transformerConfig with
  | RawFalsy => ParsedObject ∅
  | RawArray items => ParsedObject (foldl parseItem ∅ items)
  | RawOther value => ParsedAsIs value
  end.

(** The name an item is stored under and the value stored. *)
Definition itemName {C : Type} (item : TransformerItem C) : string :=
  match item with ItemName name => name | ItemPair name _ => name end.

Definition itemConfig {C : Type} (item : TransformerItem C) : ItemConfig C :=
  match item with
  | ItemPair _ (Some config) => GivenConfig config
  | _ => EmptyObject
  end.

(** ** Resolution of a [use] chain *)

Section TransformerResolution.

(** What the TransformerService holds under a name is a constructor
    (a function) or an instance; [construct c options] is
    [new c(options)], which may throw.  [Options] is the type of the
    second element of a [[name, options]] entry. *)
Variable Instance : Type.
Variable Constructor : Type.
Variable Options : Type.

Inductive Registered : Type :=
| RegisteredConstructor (c : Constructor)
| RegisteredInstance (i : Instance).

(** An element of a [use] array: a string, an array whose first
    element is a string, or anything else. *)
Inductive UseEntry : Type :=
| UseName (name : string)
| UsePair (name : string) (options : option Options)
| UseOther.

Variable getTransformer : string → option Registered.
Variable construct : Constructor → option Options → Result Instance.

(** The callback of [use.map]: [None] is the [undefined] that the
    [filter] removes.  [new] applied to an instance is a [TypeError]. *)
Definition resolveEntry (entry : UseEntry) : Result (option Instance) :=
  match entry with
  | UsePair name options =>
      match getTransformer name with
      | Some (RegisteredConstructor c) =>
          match construct c options with
          | Ok i => Ok (Some i)
          | Throw e => Throw e
          end
      | Some (RegisteredInstance _) =>
          Throw (ExternalError "TypeError: Constructor is not a constructor")
      | None => Ok None
      end
  | UseName name =>
      match getTransformer name with
      | Some (RegisteredConstructor c) =>
          match construct c None with
          | Ok i => Ok (Some i)
          | Throw e => Throw e
          end
      | Some (RegisteredInstance i) => Ok (Some i)
      | None => Ok None
      end
  | UseOther => Ok None
  end.

(** [use.map(callback).filter(t => typeof t !== 'undefined')] *)
Fixpoint resolveUse (use : list UseEntry) : Result (list Instance) :=
  match use with
  | [] => Ok []
  | entry :: rest =>
      match resolveEntry entry with
      | Throw e => Throw e
      | Ok resolved =>
          match resolveUse rest with
          | Throw e => Throw e
          | Ok instances =>
              Ok (match resolved with
                  | Some i => i :: instances
                  | None => instances
                  end)
          end
      end
  end.

(** An entry that the callback maps to [undefined]. *)
Definition unresolvable (entry : UseEntry) : Prop :=
  match entry with
  | UseName name | UsePair name _ => getTransformer name = None
  | UseOther => True
  end.

End TransformerResolution.

(** * Properties *)

(** ** Facts about the primitives *)

Lemma js_index_in_range {A : Type} (arr : list A) (i : Z) :
  0 ≤ i < Z.of_nat (length arr) →
  ∃ x, js_index arr i = Some x ∧ arr !! Z.to_nat i = Some x.
Proof.
  intros [Hlo Hhi]. unfold js_index.
  rewrite bool_decide_eq_true_2 by done.
  destruct (lookup_lt_is_Some_2 arr (Z.to_nat i)) as [x Hx]; [lia|].
  exists x. by rewrite Hx.
Qed.

Lemma rem_succ_range (e len : Z) :
  0 ≤ e → 0 < len →
  Z.rem (e + 1) len = (e + 1) mod len ∧ 0 ≤ (e + 1) mod len < len.
Proof.
  intros He Hlen. split.
  - apply Z.rem_mod_nonneg; lia.
  - apply Z.mod_pos_bound; lia.
Qed.

Lemma random_index_range (rnd : Q) (len : nat) :
  (0 <= rnd)%Q → (rnd < 1)%Q → (0 < len)%nat →
  0 ≤ random_index rnd len < Z.of_nat len.
Proof.
  intros Hlo Hhi Hlen. unfold random_index.
  set (L := inject_Z (Z.of_nat len)).
  assert (HL : (0 < L)%Q).
  { unfold L. replace 0%Q with (inject_Z 0) by reflexivity.
    rewrite <- Zlt_Qlt. lia. }
  split.
  - replace 0 with (Qfloor (inject_Z 0)) by apply Qfloor_Z.
    apply Qfloor_resp_le. change (inject_Z 0) with 0%Q.
    apply Qmult_le_0_compat; [done|]. by apply Qlt_le_weak.
  - rewrite Zlt_Qlt. fold L.
    eapply Qle_lt_trans; [apply Qfloor_le|].
    rewrite <- (Qmult_1_l L) at 2.
    by apply Qmult_lt_compat_r.
Qed.

Lemma availableIndices_elem (len : nat) (excludeIndex i : Z) :
  i ∈ ApiKeySelector.availableIndices len excludeIndex ↔
  0 ≤ i < Z.of_nat len ∧ i ≠ excludeIndex.
Proof.
  unfold ApiKeySelector.availableIndices.
  rewrite list_elem_of_filter, list_elem_of_fmap. split.
  - intros [Hne (j & -> & Hj)]. apply elem_of_seq in Hj. split; [lia|done].
  - intros [Hr Hne]. split; [done|]. exists (Z.to_nat i).
    split; [lia|]. apply elem_of_seq. lia.
Qed.

Lemma availableIndices_nonempty (len : nat) (excludeIndex : Z) :
  (1 < len)%nat →
  (0 < length (ApiKeySelector.availableIndices len excludeIndex))%nat.
Proof.
  intros Hlen.
  assert (∃ i, i ∈ ApiKeySelector.availableIndices len excludeIndex)
    as [i Hi].
  { destruct (decide (excludeIndex = 0)) as [->|Hne].
    - exists 1. apply availableIndices_elem. lia.
    - exists 0. apply availableIndices_elem. lia. }
  destruct (ApiKeySelector.availableIndices len excludeIndex);
    [by apply elem_of_nil in Hi | simpl; lia].
Qed.

(** ** ApiKeySelector *)

Section Selector.
Import ApiKeySelector.

Lemma selectKey_dispatch (this : t) (excludeIndex : option Z) (rnd : Q) :
  2 ≤ Z.of_nat (length (keys this)) →
  selectKey this excludeIndex rnd =
  match strategy this with
  | Random =>
      let e := default (-1) excludeIndex in
      let selectedIndex :=
        if bool_decide (0 ≤ e) &&
           bool_decide (1 < Z.of_nat (length (keys this))) then
          js_index (availableIndices (length (keys this)) e)
            (random_index rnd (length (availableIndices (length (keys this)) e)))
        else Some (random_index rnd (length (keys this))) in
      Ok (mkSelected (selectedIndex ≫= js_index (keys this)) selectedIndex, this)
  | Failover =>
      let e := default (-1) excludeIndex in
      if bool_decide (0 ≤ e) then
        Ok (mkSelected
              (js_index (keys this) (Z.rem (e + 1) (Z.of_nat (length (keys this)))))
              (Some (Z.rem (e + 1) (Z.of_nat (length (keys this))))),
            with_currentIndex this (Z.rem (e + 1) (Z.of_nat (length (keys this)))))
      else
        Ok (mkSelected (js_index (keys this) (currentIndex this))
              (Some (currentIndex this)), this)
  | RoundRobin =>
      let e := default (-1) excludeIndex in
      if bool_decide (0 ≤ e) then
        Ok (mkSelected
              (js_index (keys this) (Z.rem (e + 1) (Z.of_nat (length (keys this)))))
              (Some (Z.rem (e + 1) (Z.of_nat (length (keys this))))),
            this)
      else
        Ok (mkSelected (js_index (keys this) (currentIndex this))
              (Some (currentIndex this)),
            with_currentIndex this
              (Z.rem (currentIndex this + 1) (Z.of_nat (length (keys this)))))
  end.
Proof.
  intros Hlen. unfold selectKey.
  rewrite (bool_decide_eq_false_2 (_ = 0)) by lia.
  rewrite (bool_decide_eq_false_2 (_ = 1)) by lia.
  reflexivity.
Qed.

(** A non-failure round-robin call, on a selector whose cursor is in
    range. *)
Lemma round_robin_next (this : t) (excludeIndex : option Z) (rnd : Q) :
  strategy this = RoundRobin →
  2 ≤ Z.of_nat (length (keys this)) →
  0 ≤ currentIndex this < Z.of_nat (length (keys this)) →
  default (-1) excludeIndex < 0 →
  ∃ k, keys this !! Z.to_nat (currentIndex this) = Some k ∧
       selectKey this excludeIndex rnd =
       Ok (mkSelected (Some k) (Some (currentIndex this)),
           with_currentIndex this
             ((currentIndex this + 1) mod Z.of_nat (length (keys this)))).
Proof.
  intros Hs Hlen Hc He.
  destruct (js_index_in_range (keys this) (currentIndex this) Hc)
    as (k & Hk & Hk').
  exists k. split; [done|].
  rewrite selectKey_dispatch, Hs by done. cbv zeta.
  rewrite bool_decide_eq_false_2 by lia.
  rewrite Hk. do 3 f_equal.
  apply Z.rem_mod_nonneg; lia.
Qed.

(** A failure call of the round-robin and failover strategies selects
    the successor of the failed index. *)
Lemma successor_in_range (this : t) (e : Z) :
  2 ≤ Z.of_nat (length (keys this)) → 0 ≤ e →
  let next := (e + 1) mod Z.of_nat (length (keys this)) in
  Z.rem (e + 1) (Z.of_nat (length (keys this))) = next ∧
  0 ≤ next < Z.of_nat (length (keys this)) ∧
  ∃ k, js_index (keys this) next = Some k ∧
       keys this !! Z.to_nat next = Some k.
Proof.
  intros Hlen He next.
  destruct (rem_succ_range e (Z.of_nat (length (keys this)))) as [Hrem Hr];
    [lia..|].
  split; [done|]. split; [done|]. by apply js_index_in_range.
Qed.

(** [count] successive non-failure calls from cursor [c] select
    [c, c+1, ...] modulo the number of keys. *)
Lemma round_robin_run (rnds : list Q) (this : t) :
  strategy this = RoundRobin →
  2 ≤ Z.of_nat (length (keys this)) →
  0 ≤ currentIndex this < Z.of_nat (length (keys this)) →
  ∃ sels,
    selectKeys this ((λ r, (None, r)) <$> rnds) =
      Ok (sels,
          with_currentIndex this
            ((currentIndex this + Z.of_nat (length rnds))
               mod Z.of_nat (length (keys this)))) ∧
    index <$> sels =
      (λ j : nat, Some ((currentIndex this + Z.of_nat j)
                          mod Z.of_nat (length (keys this))))
        <$> seq 0 (length rnds) ∧
    Forall (λ s, ∃ i, index s = Some i ∧ key s = keys this !! Z.to_nat i ∧
                      is_Some (key s)) sels.
Proof.
  revert this. induction rnds as [|r rnds IH]; intros this Hs Hlen Hc.
  - exists []. simpl. rewrite Z.add_0_r, Z.mod_small by lia.
    destruct this; done.
  - destruct (round_robin_next this None r Hs Hlen Hc) as (k & Hk & Hsel);
      [simpl; lia|].
    set (this' := with_currentIndex this
                    ((currentIndex this + 1) mod Z.of_nat (length (keys this)))).
    destruct (IH this') as (sels & Hrun & Hidx & Hall); [done|done|..].
    { simpl. apply Z.mod_pos_bound. lia. }
    exists (mkSelected (Some k) (Some (currentIndex this)) :: sels).
    rewrite fmap_cons. cbn [selectKeys]. rewrite Hsel. fold this'.
    rewrite Hrun. clear Hrun. subst this'.
    cbn [keys currentIndex with_currentIndex strategy] in *.
    split; [|split].
    + do 2 f_equal. unfold with_currentIndex. cbn [keys strategy]. f_equal.
      rewrite Zplus_mod_idemp_l. f_equal. cbn [length]. lia.
    + rewrite fmap_cons, Hidx. cbn [length seq fmap list_fmap index]. f_equal.
      * f_equal. rewrite Z.add_0_r, Z.mod_small; lia.
      * rewrite <- (fmap_S_seq 0), <- list_fmap_compose.
        apply list_fmap_ext. intros _ j _. cbn [compose].
        rewrite Zplus_mod_idemp_l. do 2 f_equal. lia.
    + constructor; [|done]. exists (currentIndex this). cbn [index key].
      rewrite Hk. eauto.
Qed.

(** Every call keeps the keys and the strategy, and keeps the cursor a
    valid index. *)
Lemma selectKey_keys (this this' : t) (excludeIndex : option Z)
  (rnd : Q) (selected : Selected) :
  selectKey this excludeIndex rnd = Ok (selected, this') →
  keys this' = keys this ∧ strategy this' = strategy this.
Proof.
  unfold selectKey.
  case_bool_decide; [done|]. case_bool_decide; [by intros [= _ <-]|].
  destruct (strategy this) eqn:Hs; repeat case_bool_decide;
    by intros [= _ <-].
Qed.

Lemma selectKey_cursor_in_range (this this' : t) (excludeIndex : option Z)
  (rnd : Q) (selected : Selected) :
  0 ≤ currentIndex this < Z.of_nat (length (keys this)) →
  selectKey this excludeIndex rnd = Ok (selected, this') →
  0 ≤ currentIndex this' < Z.of_nat (length (keys this')).
Proof.
  intros Hc. unfold selectKey.
  case_bool_decide; [done|]. case_bool_decide; [by intros [= _ <-]|].
  assert (Hpos : 0 < Z.of_nat (length (keys this))) by lia.
  destruct (strategy this) eqn:Hs.
  - case_bool_decide; intros [= _ <-]; [done|].
    cbn. rewrite Z.rem_mod_nonneg by lia. by apply Z.mod_pos_bound.
  - by intros [= _ <-].
  - case_bool_decide; intros [= _ <-]; [|done].
    cbn. rewrite Z.rem_mod_nonneg by lia. by apply Z.mod_pos_bound.
Qed.

Lemma reachable_cursor_in_range (this : t) :
  reachable this → 0 < Z.of_nat (length (keys this)) →
  0 ≤ currentIndex this < Z.of_nat (length (keys this)).
Proof.
  induction 1 as [ks st|this e rnd selected this' _ IH Hsel]; intros Hlen.
  - cbn in *. lia.
  - destruct (selectKey_keys _ _ _ _ _ Hsel) as [Hkeys _].
    eapply selectKey_cursor_in_range; [|done].
    apply IH. by rewrite <- Hkeys.
Qed.

End Selector.

Section SelectorClaims.
Import ApiKeySelector.

(** C6. Round-robin with at least two keys, on any selector that can
    exist at run time: a non-failure call ([selectKey()] or
    [selectKey(-1)]) returns the key at [currentIndex] and advances the
    cursor to [(currentIndex + 1) mod n]; any number of successive
    non-failure calls therefore selects [c, c+1, c+2, ...] modulo [n]
    (from a fresh selector: 0, 1, ..., n-1, 0, 1, ...); a failure call
    with [excludeIndex >= 0] returns the key at
    [(excludeIndex + 1) mod n] and leaves the selector as it was
    ([excludeIndex] below [2 ^ 53], where [excludeIndex + 1] is exact
    in the source). *)
Theorem selectKey_round_robin (this : t) :
  reachable this →
  strategy this = RoundRobin →
  2 ≤ Z.of_nat (length (keys this)) →
  let n := Z.of_nat (length (keys this)) in
  let c := currentIndex this in
  (∀ rnd, ∃ k,
      keys this !! Z.to_nat c = Some k ∧
      selectKey this (Some (-1)) rnd =
        Ok (mkSelected (Some k) (Some c), with_currentIndex this ((c + 1) mod n)) ∧
      selectKey this None rnd =
        Ok (mkSelected (Some k) (Some c), with_currentIndex this ((c + 1) mod n))) ∧
  (∀ rnds : list Q, ∃ sels,
      selectKeys this ((λ r, (None, r)) <$> rnds) =
        Ok (sels, with_currentIndex this ((c + Z.of_nat (length rnds)) mod n)) ∧
      index <$> sels =
        (λ j : nat, Some ((c + Z.of_nat j) mod n)) <$> seq 0 (length rnds) ∧
      Forall (λ s, ∃ i, index s = Some i ∧ key s = keys this !! Z.to_nat i ∧
                        is_Some (key s)) sels) ∧
  (∀ e rnd, 0 ≤ e → e < 2 ^ 53 → ∃ k,
      keys this !! Z.to_nat ((e + 1) mod n) = Some k ∧
      selectKey this (Some e) rnd =
        Ok (mkSelected (Some k) (Some ((e + 1) mod n)), this)).
Proof.
  intros Hreach Hs Hlen n c. subst n c.
  assert (Hc := reachable_cursor_in_range this Hreach ltac:(lia)).
  split; [|split].
  - intros rnd.
    destruct (round_robin_next this (Some (-1)) rnd Hs Hlen Hc)
      as (k & Hk & H1); [simpl; lia|].
    destruct (round_robin_next this None rnd Hs Hlen Hc)
      as (k' & Hk' & H2); [simpl; lia|].
    exists k. replace k' with k in H2 by congruence. done.
  - intros rnds. by apply round_robin_run.
  - intros e rnd He _.
    destruct (successor_in_range this e Hlen He) as (Hrem & _ & k & Hk & Hk').
    exists k. split; [done|].
    rewrite selectKey_dispatch, Hs by done. cbv zeta.
    cbn [default from_option id]. rewrite bool_decide_eq_true_2 by done.
    by rewrite Hrem, Hk.
Qed.

Lemma selectKey_round_robin_witness :
  selectKeys (new ["k1"; "k2"; "k3"]%string (Some RoundRobin))
    ((λ r, (None, r)) <$> [0%Q; 0%Q; 0%Q; 0%Q; 0%Q]) =
  Ok ([mkSelected (Some "k1"%string) (Some 0);
       mkSelected (Some "k2"%string) (Some 1);
       mkSelected (Some "k3"%string) (Some 2);
       mkSelected (Some "k1"%string) (Some 0);
       mkSelected (Some "k2"%string) (Some 1)],
      mk 2 RoundRobin ["k1"; "k2"; "k3"]%string) ∧
  ∃ k, selectKey (new ["k1"; "k2"; "k3"]%string (Some RoundRobin))
         (Some 2) 0%Q =
       Ok (mkSelected (Some k) (Some 0),
           new ["k1"; "k2"; "k3"]%string (Some RoundRobin)).
Proof.
  split; [reflexivity|].
  destruct (selectKey_round_robin
              (new ["k1"; "k2"; "k3"]%string (Some RoundRobin)))
    as (_ & _ & H); [apply reachable_new | reflexivity | simpl; lia |].
  destruct (H 2 0%Q) as (k & _ & Hsel); [lia | reflexivity |].
  exists k. exact Hsel.
Defined.

(** C7. Failover with at least two keys, on any selector that can
    exist at run time: a non-failure call returns the key at
    [currentIndex] and leaves the selector unchanged; a failure call
    with [excludeIndex >= 0] stores [(excludeIndex + 1) mod n] in
    [currentIndex] and returns that key, and the non-failure call that
    follows returns the same key and index again ([excludeIndex]
    below [2 ^ 53], where [excludeIndex + 1] is exact in the
    source). *)
Theorem selectKey_failover (this : t) :
  reachable this →
  strategy this = Failover →
  2 ≤ Z.of_nat (length (keys this)) →
  let n := Z.of_nat (length (keys this)) in
  let c := currentIndex this in
  (∀ rnd, ∃ k,
      keys this !! Z.to_nat c = Some k ∧
      selectKey this (Some (-1)) rnd = Ok (mkSelected (Some k) (Some c), this) ∧
      selectKey this None rnd = Ok (mkSelected (Some k) (Some c), this)) ∧
  (∀ e rnd rnd', 0 ≤ e → e < 2 ^ 53 → ∃ k,
      let next := (e + 1) mod n in
      keys this !! Z.to_nat next = Some k ∧
      selectKey this (Some e) rnd =
        Ok (mkSelected (Some k) (Some next), with_currentIndex this next) ∧
      selectKey (with_currentIndex this next) None rnd' =
        Ok (mkSelected (Some k) (Some next), with_currentIndex this next) ∧
      selectKey (with_currentIndex this next) (Some (-1)) rnd' =
        Ok (mkSelected (Some k) (Some next), with_currentIndex this next)).
Proof.
  intros Hreach Hs Hlen n c. subst n c.
  assert (Hc := reachable_cursor_in_range this Hreach ltac:(lia)).
  split.
  - intros rnd.
    destruct (js_index_in_range (keys this) _ Hc) as (k & Hk & Hk').
    exists k. split; [done|].
    rewrite !selectKey_dispatch, Hs by done. cbv zeta. cbn [default from_option id].
    rewrite bool_decide_eq_false_2 by lia. by rewrite Hk.
  - intros e rnd rnd' He _.
    destruct (successor_in_range this e Hlen He)
      as (Hrem & Hr & k & Hk & Hk').
    exists k. cbv zeta.
    split; [done|]. split.
    + rewrite selectKey_dispatch, Hs by done. cbv zeta. cbn [default from_option id].
      rewrite bool_decide_eq_true_2 by done. by rewrite Hrem, Hk.
    + rewrite !selectKey_dispatch by done.
      cbn [strategy keys currentIndex with_currentIndex]. rewrite Hs.
      cbv zeta. cbn [default from_option id]. rewrite bool_decide_eq_false_2 by lia.
      by rewrite Hk.
Qed.

Lemma selectKey_failover_witness :
  ∃ k, selectKey (new ["k1"; "k2"]%string (Some Failover)) (Some 0) 0%Q =
         Ok (mkSelected (Some k) (Some 1), mk 1 Failover ["k1"; "k2"]%string) ∧
       selectKey (mk 1 Failover ["k1"; "k2"]%string) None 0%Q =
         Ok (mkSelected (Some k) (Some 1), mk 1 Failover ["k1"; "k2"]%string).
Proof.
  destruct (selectKey_failover (new ["k1"; "k2"]%string (Some Failover)))
    as (_ & H); [apply reachable_new | reflexivity | simpl; lia |].
  destruct (H 0 0%Q 0%Q) as (k & _ & H1 & H2 & _); [lia | reflexivity |].
  exists k. split; [exact H1 | exact H2].
Defined.

(** C8. Random with more than one key: for every failure call with
    [excludeIndex >= 0] and every draw in [0,1), the call returns a key
    together with its index, the index is a valid index into [keys]
    and differs from [excludeIndex]; the selector is not modified.
    With exactly one key every call returns that key at index 0,
    whatever [excludeIndex] is. *)
Theorem selectKey_random_excludes (this : t) (rnd : Q) :
  strategy this = Random →
  (0 <= rnd)%Q → (rnd < 1)%Q →
  (1 < Z.of_nat (length (keys this)) →
   ∀ e, 0 ≤ e → ∃ i k,
     selectKey this (Some e) rnd = Ok (mkSelected (Some k) (Some i), this) ∧
     0 ≤ i < Z.of_nat (length (keys this)) ∧
     keys this !! Z.to_nat i = Some k ∧
     i ≠ e) ∧
  (∀ k0, keys this = [k0] →
   ∀ e, selectKey this e rnd = Ok (mkSelected (Some k0) (Some 0), this)).
Proof.
  intros Hs Hlo Hhi. split.
  - intros Hlen e He.
    set (available := availableIndices (length (keys this)) e).
    assert (Hne : (0 < length available)%nat)
      by (apply availableIndices_nonempty; lia).
    pose proof (random_index_range rnd (length available) Hlo Hhi Hne) as Hr.
    destruct (js_index_in_range available _ Hr) as (i & Hi & Hi').
    assert (Hin : i ∈ available) by (eapply list_elem_of_lookup_2; eauto).
    apply availableIndices_elem in Hin as [Hrange Hdiff].
    destruct (js_index_in_range (keys this) i Hrange) as (k & Hk & Hk').
    exists i, k. split; [|done].
    rewrite selectKey_dispatch, Hs by lia. cbv zeta. cbn [default from_option id].
    rewrite !bool_decide_eq_true_2 by lia. cbn [andb].
    fold available. rewrite Hi. cbn [mbind option_bind]. by rewrite Hk.
  - intros k0 Hk e. unfold selectKey. rewrite Hk. reflexivity.
Qed.

Lemma selectKey_random_excludes_witness :
  (∃ i k,
     selectKey (new ["k1"; "k2"; "k3"]%string (Some Random)) (Some 1) (9 # 10) =
       Ok (mkSelected (Some k) (Some i),
           new ["k1"; "k2"; "k3"]%string (Some Random)) ∧
     0 ≤ i < 3 ∧ i ≠ 1) ∧
  selectKey (new ["k1"]%string (Some Random)) (Some 0) (9 # 10) =
    Ok (mkSelected (Some "k1"%string) (Some 0), new ["k1"]%string (Some Random)).
Proof.
  split.
  - destruct (selectKey_random_excludes
                (new ["k1"; "k2"; "k3"]%string (Some Random)) (9 # 10))
      as (H & _); [reflexivity | unfold Qle; simpl; lia | reflexivity |].
    destruct (H ltac:(simpl; lia) 1 ltac:(lia)) as (i & k & Hsel & Hr & _ & Hne).
    exists i, k. split; [exact Hsel|]. split; [exact Hr | exact Hne].
  - destruct (selectKey_random_excludes
                (new ["k1"]%string (Some Random)) (9 # 10))
      as (_ & H); [reflexivity | unfold Qle; simpl; lia | reflexivity |].
    exact (H "k1"%string eq_refl (Some 0)).
Defined.

End SelectorClaims.

(** ** Qualified names *)

Lemma comma_join_inj_r (a b c : string) :
  comma_join a b = comma_join a c → b = c.
Proof.
  unfold comma_join. intros H.
  apply String.app_inj in H. by apply String.app_inj in H.
Qed.

Lemma no_comma_join (a b : string) : no_comma (comma_join a b) = false.
Proof. unfold comma_join. induction a as [|ch a IH]; simpl; [done|]. by destruct (Ascii.eqb ch ","). Qed.

Lemma no_comma_not_join (m a b : string) :
  no_comma m = true → comma_join a b ≠ m.
Proof. intros Hm <-. by rewrite no_comma_join in Hm. Qed.

Lemma comma_join_inj (a b c d : string) :
  no_comma a = true → no_comma c = true →
  comma_join a b = comma_join c d → a = c ∧ b = d.
Proof.
  unfold comma_join. revert c.
  induction a as [|x a IH]; intros [|y c] Ha Hc H; simpl in *.
  - by injection H.
  - injection H as <- _. by rewrite Ascii.eqb_refl in Hc.
  - injection H as -> _. by rewrite Ascii.eqb_refl in Ha.
  - injection H as -> H.
    destruct (Ascii.eqb y ","); [done|].
    destruct (IH c Ha Hc H) as [-> ->]. done.
Qed.

(** ** The insertion-ordered map *)

Section JsMapFacts.
Context {V : Type}.
Implicit Types (m : JsMap.t V) (k : string) (v : V).

Lemma JsMap_get_set_eq m k v : JsMap.get k (JsMap.set k v m) = Some v.
Proof.
  induction m as [|[k' v'] m IH]; simpl.
  - by rewrite String.eqb_refl.
  - destruct (String.eqb k k') eqn:E; simpl; rewrite ?String.eqb_refl, ?E; done.
Qed.

Lemma JsMap_get_set_ne m k k' v :
  k ≠ k' → JsMap.get k' (JsMap.set k v m) = JsMap.get k' m.
Proof.
  intros Hne. induction m as [|[k0 v0] m IH]; simpl.
  - by destruct (String.eqb_spec k' k).
  - destruct (String.eqb_spec k k0) as [<-|Hk]; simpl.
    + by destruct (String.eqb_spec k' k).
    + by rewrite IH.
Qed.

Lemma JsMap_get_delete_eq m k : JsMap.get k (JsMap.delete k m) = None.
Proof.
  induction m as [|[k' v'] m IH]; simpl; [done|].
  destruct (String.eqb k k') eqn:E; simpl; rewrite ?E; done.
Qed.

Lemma JsMap_get_delete_ne m k k' :
  k ≠ k' → JsMap.get k' (JsMap.delete k m) = JsMap.get k' m.
Proof.
  intros Hne. induction m as [|[k0 v0] m IH]; simpl; [done|].
  destruct (String.eqb_spec k k0) as [<-|Hk]; simpl.
  - by destruct (String.eqb_spec k' k).
  - by rewrite IH.
Qed.

End JsMapFacts.

(** ** The route table *)

Section RouteTable.
Import ProviderService.
Implicit Types (R : gmap string ModelRoute.t) (P k m : string)
  (ms : list string).

Lemma insertRoute_full P R m :
  insertRoute P R m !! comma_join P m = Some (routeOf P m).
Proof.
  unfold insertRoute, routeOf. case_bool_decide.
  - by rewrite lookup_insert_eq.
  - destruct (decide (m = comma_join P m)) as [<-|Hne].
    + by rewrite lookup_insert_eq.
    + by rewrite lookup_insert_ne, lookup_insert_eq.
Qed.

Lemma insertRoute_bare_fresh P R m :
  R !! m = None → insertRoute P R m !! m = Some (routeOf P m).
Proof.
  intros Hm. unfold insertRoute, routeOf. case_bool_decide as Hhas.
  - destruct (decide (comma_join P m = m)) as [Heq|Hne].
    + by rewrite Heq, lookup_insert_eq.
    + rewrite lookup_insert_ne, Hm in Hhas by done. by destruct Hhas.
  - by rewrite lookup_insert_eq.
Qed.

(** An entry that is present survives unless the qualified key of the
    inserted model is its key. *)
Lemma insertRoute_keep P R m k r :
  comma_join P m ≠ k → R !! k = Some r → insertRoute P R m !! k = Some r.
Proof.
  intros Hne Hk. unfold insertRoute. case_bool_decide as Hhas.
  - by rewrite lookup_insert_ne.
  - destruct (decide (m = k)) as [->|Hmk].
    + destruct Hhas. rewrite lookup_insert_ne by done. eauto.
    + by rewrite !lookup_insert_ne.
Qed.

Lemma insertRoute_frame P R m k :
  comma_join P m ≠ k → m ≠ k → insertRoute P R m !! k = R !! k.
Proof.
  intros Hne Hmk. unfold insertRoute.
  case_bool_decide; by rewrite !lookup_insert_ne.
Qed.

(** Whatever is found after an insertion is the inserted route or was
    there before. *)
Lemma insertRoute_cases P R m k r :
  insertRoute P R m !! k = Some r → r = routeOf P m ∨ R !! k = Some r.
Proof.
  unfold insertRoute, routeOf. case_bool_decide.
  - rewrite lookup_insert. case_decide; naive_solver.
  - rewrite !lookup_insert. repeat case_decide; naive_solver.
Qed.

Lemma insertRoute_is_Some P R m k :
  is_Some (R !! k) → is_Some (insertRoute P R m !! k).
Proof.
  intros [r Hr]. destruct (decide (comma_join P m = k)) as [<-|Hne].
  - rewrite insertRoute_full. eauto.
  - erewrite insertRoute_keep; eauto.
Qed.

Lemma insertRoutes_cons P R m ms :
  insertRoutes P (m :: ms) R = insertRoutes P ms (insertRoute P R m).
Proof. reflexivity. Qed.

Lemma insertRoutes_keep P ms R k r :
  (∀ x, x ∈ ms → comma_join P x ≠ k) → R !! k = Some r →
  insertRoutes P ms R !! k = Some r.
Proof.
  revert R. induction ms as [|x ms IH]; intros R Hne Hk; [done|].
  rewrite insertRoutes_cons. apply IH.
  - intros y Hy. apply Hne. by apply elem_of_cons; right.
  - apply insertRoute_keep; [|done]. apply Hne. by apply elem_of_cons; left.
Qed.

Lemma insertRoutes_frame P ms R k :
  (∀ x, x ∈ ms → comma_join P x ≠ k ∧ x ≠ k) →
  insertRoutes P ms R !! k = R !! k.
Proof.
  revert R. induction ms as [|x ms IH]; intros R Hne; [done|].
  rewrite insertRoutes_cons, IH.
  - destruct (Hne x) as [? ?]; [by apply elem_of_cons; left|].
    by apply insertRoute_frame.
  - intros y Hy. apply Hne. by apply elem_of_cons; right.
Qed.

(** The qualified entry of every inserted model holds that model's
    route. *)
Lemma insertRoutes_full P ms R m :
  m ∈ ms → insertRoutes P ms R !! comma_join P m = Some (routeOf P m).
Proof.
  revert R. induction ms as [|x ms IH]; intros R Hin.
  - by apply elem_of_nil in Hin.
  - rewrite insertRoutes_cons.
    destruct (decide (m ∈ ms)) as [Hms|Hms]; [by apply IH|].
    apply elem_of_cons in Hin as [->|?]; [|done].
    apply insertRoutes_keep; [|apply insertRoute_full].
    intros y Hy Heq. apply comma_join_inj_r in Heq as ->. done.
Qed.

(** First claim wins: a bare name that is free, and is not the
    qualified name of one of the models, goes to the inserting
    provider. *)
Lemma insertRoutes_bare_fresh P ms R m :
  R !! m = None → m ∈ ms → (∀ x, x ∈ ms → comma_join P x ≠ m) →
  insertRoutes P ms R !! m = Some (routeOf P m).
Proof.
  revert R. induction ms as [|x ms IH]; intros R Hm Hin Hne.
  - by apply elem_of_nil in Hin.
  - rewrite insertRoutes_cons.
    assert (Hne' : ∀ y, y ∈ ms → comma_join P y ≠ m)
      by (intros y Hy; apply Hne; by apply elem_of_cons; right).
    destruct (decide (x = m)) as [->|Hxm].
    + apply insertRoutes_keep; [done|]. by apply insertRoute_bare_fresh.
    + apply IH; [|by apply elem_of_cons in Hin as [?|?]|done].
      rewrite insertRoute_frame; [done| |done].
      apply Hne. by apply elem_of_cons; left.
Qed.

Lemma insertRoutes_cases P ms R k r :
  insertRoutes P ms R !! k = Some r →
  (∃ x, x ∈ ms ∧ r = routeOf P x) ∨ R !! k = Some r.
Proof.
  revert R. induction ms as [|x ms IH]; intros R Hk; [by right|].
  rewrite insertRoutes_cons in Hk. apply IH in Hk as [(y & Hy & ->)|Hk].
  - left. exists y. split; [by apply elem_of_cons; right|done].
  - apply insertRoute_cases in Hk as [->|Hk]; [|by right].
    left. exists x. split; [by apply elem_of_cons; left|done].
Qed.

Lemma insertRoutes_is_Some P ms R k :
  is_Some (R !! k) → is_Some (insertRoutes P ms R !! k).
Proof.
  revert R. induction ms as [|x ms IH]; intros R Hk; [done|].
  rewrite insertRoutes_cons. by apply IH, insertRoute_is_Some.
Qed.

Lemma insertRoutes_bare_is_Some P ms R m :
  m ∈ ms → is_Some (insertRoutes P ms R !! m).
Proof.
  revert R. induction ms as [|x ms IH]; intros R Hin.
  - by apply elem_of_nil in Hin.
  - rewrite insertRoutes_cons. apply elem_of_cons in Hin as [->|Hin].
    + apply insertRoutes_is_Some.
      destruct (R !! x) as [r|] eqn:Hx.
      * apply insertRoute_is_Some. rewrite Hx. eauto.
      * rewrite insertRoute_bare_fresh by done. eauto.
    + by apply IH.
Qed.

Lemma deleteRoutes_cons pre m ms R :
  deleteRoutes pre (m :: ms) R = deleteRoutes pre ms (deleteRoute pre R m).
Proof. reflexivity. Qed.

(** Deletion only removes. *)
Lemma deleteRoutes_None pre ms R k :
  R !! k = None → deleteRoutes pre ms R !! k = None.
Proof.
  revert R. induction ms as [|x ms IH]; intros R Hk; [done|].
  rewrite deleteRoutes_cons. apply IH. unfold deleteRoute.
  rewrite !lookup_delete. repeat case_decide; done.
Qed.

Lemma deleteRoutes_bare pre ms R m :
  m ∈ ms → deleteRoutes pre ms R !! m = None.
Proof.
  revert R. induction ms as [|x ms IH]; intros R Hin.
  - by apply elem_of_nil in Hin.
  - rewrite deleteRoutes_cons. apply elem_of_cons in Hin as [->|Hin].
    + apply deleteRoutes_None. unfold deleteRoute. apply lookup_delete_eq.
    + by apply IH.
Qed.

Lemma deleteRoutes_full pre ms R m :
  m ∈ ms → deleteRoutes pre ms R !! comma_join pre m = None.
Proof.
  revert R. induction ms as [|x ms IH]; intros R Hin.
  - by apply elem_of_nil in Hin.
  - rewrite deleteRoutes_cons. apply elem_of_cons in Hin as [->|Hin].
    + apply deleteRoutes_None. unfold deleteRoute.
      rewrite lookup_delete. case_decide; [done|]. apply lookup_delete_eq.
    + by apply IH.
Qed.

Lemma deleteRoutes_frame pre ms R k :
  (∀ x, x ∈ ms → comma_join pre x ≠ k ∧ x ≠ k) →
  deleteRoutes pre ms R !! k = R !! k.
Proof.
  revert R. induction ms as [|x ms IH]; intros R Hne; [done|].
  rewrite deleteRoutes_cons, IH.
  - destruct (Hne x) as [? ?]; [by apply elem_of_cons; left|].
    unfold deleteRoute. by rewrite !lookup_delete_ne.
  - intros y Hy. apply Hne. by apply elem_of_cons; right.
Qed.

End RouteTable.

(** ** ProviderService *)

Section Registry.
Import ProviderService.
Implicit Types (this s : ProviderService.t) (request q : RegisterProviderRequest.t).

Lemma resolveModelRoute_lookup s k r p :
  modelRoutes s !! k = Some r →
  JsMap.get (ModelRoute.provider r) (providers s) = Some p →
  resolveModelRoute s k = Some (RequestRouteInfo.mk p k (ModelRoute.model r)).
Proof. intros Hr Hp. unfold resolveModelRoute. by rewrite Hr, Hp. Qed.

Lemma registerProvider_getProvider this request :
  JsMap.get (RegisterProviderRequest.name request)
    (providers (registerProvider this request).2) =
  Some (LLMProvider.of_request request).
Proof. apply JsMap_get_set_eq. Qed.

Lemma registerProvider_getProvider_ne this request n :
  RegisterProviderRequest.name request ≠ n →
  JsMap.get n (providers (registerProvider this request).2) =
  JsMap.get n (providers this).
Proof. intros Hne. by apply JsMap_get_set_ne. Qed.

Lemma registerAll_cons this request requests :
  registerAll this (request :: requests) =
  registerAll (registerProvider this request).2 requests.
Proof. reflexivity. Qed.

Lemma registerAll_app this l1 l2 :
  registerAll this (l1 ++ l2) = registerAll (registerAll this l1) l2.
Proof. apply foldl_app. Qed.

(** Registrations under other names keep a provider record, and keep a
    route entry whose key is not one of their qualified names. *)
Lemma registerAll_keep requests this n p k r :
  Forall (λ q, RegisterProviderRequest.name q ≠ n ∧
               ∀ x, x ∈ RegisterProviderRequest.models q →
                    comma_join (RegisterProviderRequest.name q) x ≠ k) requests →
  JsMap.get n (providers this) = Some p →
  modelRoutes this !! k = Some r →
  JsMap.get n (providers (registerAll this requests)) = Some p ∧
  modelRoutes (registerAll this requests) !! k = Some r.
Proof.
  intros Hall. revert this.
  induction Hall as [|q requests [Hname Hkeys] _ IH]; intros this Hp Hr; [done|].
  rewrite registerAll_cons. apply IH.
  - by rewrite registerProvider_getProvider_ne.
  - by apply insertRoutes_keep.
Qed.

Lemma updateProvider_modelRoutes this id provider updates newModels now :
  JsMap.get id (providers this) = Some provider →
  ProviderUpdate.models updates = Some newModels →
  modelRoutes (updateProvider this id updates now).2 =
  insertRoutes (LLMProvider.name provider) newModels
    (deleteRoutes (template_string (LLMProvider.id provider))
       (LLMProvider.models provider) (modelRoutes this)).
Proof. intros Hp Hu. unfold updateProvider. by rewrite Hp, Hu. Qed.

Lemma registerAll_keySelectors_None requests this n :
  n ∉ RegisterProviderRequest.name <$> requests →
  keySelectors this !! n = None →
  keySelectors (registerAll this requests) !! n = None.
Proof.
  revert this. induction requests as [|q requests IH]; intros this Hn Hs; [done|].
  rewrite fmap_cons in Hn. apply not_elem_of_cons in Hn as [Hq Hn].
  rewrite registerAll_cons. apply IH; [done|].
  cbn. by rewrite lookup_insert_ne.
Qed.

End Registry.

(** Closes [x ∉ l] for a literal string [x] and a literal list [l]. *)
Ltac string_not_in :=
  let H := fresh "H" in
  intros H; cbn in H;
  repeat (apply elem_of_cons in H as [H|H]; [discriminate H|]);
  by apply elem_of_nil in H.

Section RegistryClaims.
Import ProviderService.

(** C10. Registering again under a name that is already registered
    replaces the provider record and the key selector, and leaves the
    routes of the first registration in place: for a model [m] of the
    first model list that is not in the second, the qualified entry
    ["name,m"] is still the route made by the first registration and
    resolves to the newly stored provider; a bare entry that the
    provider owned after the first registration is still owned by it
    and resolves to the newly stored provider (and it is the very same
    entry unless [m] happens to be a qualified name of the second
    registration). *)
Theorem registerProvider_again_keeps_routes
  (this : ProviderService.t) (first second : RegisterProviderRequest.t)
  (m : string) :
  RegisterProviderRequest.name first = RegisterProviderRequest.name second →
  m ∈ RegisterProviderRequest.models first →
  m ∉ RegisterProviderRequest.models second →
  let name := RegisterProviderRequest.name second in
  let s1 := (registerProvider this first).2 in
  let s2 := (registerProvider s1 second).2 in
  getProvider s2 name = Some (LLMProvider.of_request second) ∧
  keySelectors s2 !! name =
    Some (ApiKeySelector.new (RegisterProviderRequest.apiKey second)
            (Some (default RoundRobin
                     (RegisterProviderRequest.apiKeyStrategy second)))) ∧
  modelRoutes s2 !! comma_join name m = Some (routeOf name m) ∧
  resolveModelRoute s2 (comma_join name m) =
    Some (RequestRouteInfo.mk (LLMProvider.of_request second)
            (comma_join name m) m) ∧
  (∀ r, modelRoutes s1 !! m = Some r → ModelRoute.provider r = name →
        (∃ r', modelRoutes s2 !! m = Some r' ∧
               ModelRoute.provider r' = name ∧
               resolveModelRoute s2 m =
                 Some (RequestRouteInfo.mk (LLMProvider.of_request second) m
                         (ModelRoute.model r'))) ∧
        ((∀ x, x ∈ RegisterProviderRequest.models second →
               comma_join name x ≠ m) →
         modelRoutes s2 !! m = Some r)).
Proof.
  intros Hname Hin Hout name s1 s2.
  assert (Hp : JsMap.get name (providers s2) = Some (LLMProvider.of_request second))
    by apply registerProvider_getProvider.
  assert (Hq : modelRoutes s2 !! comma_join name m = Some (routeOf name m)).
  { subst s2 s1. cbn [registerProvider snd modelRoutes].
    cbn [LLMProvider.of_request LLMProvider.name]. fold name.
    apply insertRoutes_keep.
    - intros x Hx Heq. apply comma_join_inj_r in Heq as ->. done.
    - rewrite Hname. fold name. by apply insertRoutes_full. }
  split; [done|]. split; [apply lookup_insert_eq|]. split; [done|]. split.
  { by apply (resolveModelRoute_lookup s2 _ (routeOf name m)). }
  intros r Hr Hown. split.
  - assert (is_Some (modelRoutes s2 !! m)) as [r' Hr'].
    { apply insertRoutes_is_Some. fold s1. eauto. }
    assert (Hown' : ModelRoute.provider r' = name).
    { apply insertRoutes_cases in Hr' as [(x & _ & ->)|Hr']; [done|].
      fold s1 in Hr'. congruence. }
    exists r'. split; [done|]. split; [done|].
    apply resolveModelRoute_lookup; [done|]. by rewrite Hown'.
  - intros Hne. by apply insertRoutes_keep.
Qed.

Lemma registerProvider_again_keeps_routes_witness :
  resolveModelRoute Scenario.reregistered "p,old" =
    Some (RequestRouteInfo.mk
            (LLMProvider.of_request (Scenario.request "p" ["k2"] ["kept"; "new"]))
            "p,old" "old") ∧
  modelRoutes Scenario.reregistered !! "old"%string = Some (routeOf "p" "old").
Proof.
  destruct (registerProvider_again_keeps_routes ProviderService.empty
              (Scenario.request "p" ["k1"] ["old"; "kept"])
              (Scenario.request "p" ["k2"] ["kept"; "new"]) "old")
    as (_ & _ & _ & Hres & Hbare);
    [reflexivity | by apply list_elem_of_here | string_not_in |].
  split; [exact Hres|].
  refine (proj2 (Hbare (routeOf "p" "old") _ _) _).
  - vm_compute. reflexivity.
  - reflexivity.
  - intros x Hx Heq. cbn in Hx.
    repeat (apply elem_of_cons in Hx as [->|Hx]; [discriminate Heq|]).
    by apply elem_of_nil in Hx.
Defined.

End RegistryClaims.

Section FirstClaim.
Import ProviderService.

(** C2, as amended.  Let provider [P] be registered with a model [m]
    whose bare name is free and contains no comma, and let any number
    of providers with names other than [P]'s be registered
    afterwards.  Then the bare entry [m] resolves to [P] with target
    model [m], whether or not a later provider serves [m] too.  When
    moreover the names of all these providers are distinct and free
    of commas, then for every one of them, [Q], and every model [x]
    of [Q] the qualified entry ["Q,x"] resolves to [Q] with target
    model [x].  A model-list update of a provider that lists [m], in
    any state of the service, leaves no bare entry for [m] or one
    owned by the updated provider. *)
Theorem first_claim_wins_over_registrations
  (this : ProviderService.t) (first : RegisterProviderRequest.t)
  (later : list RegisterProviderRequest.t) (m : string) :
  let s := registerAll this (first :: later) in
  (no_comma m = true →
   modelRoutes this !! m = None →
   m ∈ RegisterProviderRequest.models first →
   Forall (λ q, RegisterProviderRequest.name q ≠
                RegisterProviderRequest.name first) later →
   resolveModelRoute s m =
     Some (RequestRouteInfo.mk (LLMProvider.of_request first) m m)) ∧
  (Forall (λ q, no_comma (RegisterProviderRequest.name q) = true)
     (first :: later) →
   NoDup (RegisterProviderRequest.name <$> first :: later) →
   ∀ q x, q ∈ first :: later → x ∈ RegisterProviderRequest.models q →
     resolveModelRoute s (comma_join (RegisterProviderRequest.name q) x) =
       Some (RequestRouteInfo.mk (LLMProvider.of_request q)
               (comma_join (RegisterProviderRequest.name q) x) x)) ∧
  (∀ (s' : ProviderService.t) id provider updates newModels now r,
    JsMap.get id (providers s') = Some provider →
    m ∈ LLMProvider.models provider →
    ProviderUpdate.models updates = Some newModels →
    modelRoutes (updateProvider s' id updates now).2 !! m = Some r →
    ModelRoute.provider r = LLMProvider.name provider).
Proof.
  intros s. split; [|split].
  3: { intros s' id provider updates newModels now r Hp Hold Hnew Hr.
       rewrite (updateProvider_modelRoutes _ _ _ _ _ _ Hp Hnew) in Hr.
       apply insertRoutes_cases in Hr as [(x & _ & ->)|Hr]; [done|].
       by rewrite deleteRoutes_bare in Hr. }
  - intros Hm Hfree Hin Hother. subst s. rewrite registerAll_cons.
    destruct (registerAll_keep later (registerProvider this first).2
                (RegisterProviderRequest.name first)
                (LLMProvider.of_request first) m
                (routeOf (RegisterProviderRequest.name first) m))
      as [Hp Hr].
    + eapply Forall_impl; [exact Hother|]. intros q Hq. split; [done|].
      intros x _. by apply no_comma_not_join.
    + apply registerProvider_getProvider.
    + apply insertRoutes_bare_fresh; [done..|].
      intros x _. by apply no_comma_not_join.
    + by apply (resolveModelRoute_lookup _ _ _ _ Hr).
  - intros Hnames Hdup q x Hq Hx. subst s.
    apply list_elem_of_split in Hq as (l1 & l2 & Hsplit).
    rewrite Hsplit in Hnames, Hdup |- *.
    rewrite registerAll_app, registerAll_cons.
    apply Forall_app in Hnames as [_ Hnames].
    apply Forall_cons in Hnames as [Hq Hl2].
    rewrite fmap_app, fmap_cons in Hdup.
    apply NoDup_app in Hdup as (_ & _ & Hdup).
    apply NoDup_cons in Hdup as [Hfresh _].
    destruct (registerAll_keep l2 (registerProvider (registerAll this l1) q).2
                (RegisterProviderRequest.name q) (LLMProvider.of_request q)
                (comma_join (RegisterProviderRequest.name q) x)
                (routeOf (RegisterProviderRequest.name q) x))
      as [Hp Hr].
    + apply Forall_forall. intros q' Hq'.
      assert (Hne : RegisterProviderRequest.name q' ≠ RegisterProviderRequest.name q).
      { intros Heq. apply Hfresh. rewrite <- Heq. by apply list_elem_of_fmap_2. }
      split; [done|]. intros y _ Heq.
      apply comma_join_inj in Heq as [? _]; [done| |done].
      by eapply Forall_forall in Hl2.
    + apply registerProvider_getProvider.
    + by apply insertRoutes_full.
    + by apply (resolveModelRoute_lookup _ _ _ _ Hr).
Qed.

Lemma first_claim_wins_over_registrations_witness :
  resolveModelRoute Scenario.shared "chat" =
    Some (RequestRouteInfo.mk
            (LLMProvider.of_request (Scenario.request "A" ["a1"; "a2"] ["chat"]))
            "chat" "chat") ∧
  resolveModelRoute Scenario.shared "B,chat" =
    Some (RequestRouteInfo.mk
            (LLMProvider.of_request (Scenario.request "B" ["b1"] ["chat"]))
            "B,chat" "chat").
Proof.
  destruct (first_claim_wins_over_registrations ProviderService.empty
              (Scenario.request "A" ["a1"; "a2"] ["chat"])
              [Scenario.request "B" ["b1"] ["chat"]] "chat")
    as (Hbare & Hqualified & _).
  split.
  - apply Hbare.
    + reflexivity.
    + reflexivity.
    + by apply list_elem_of_here.
    + repeat constructor. discriminate.
  - apply (Hqualified ltac:(repeat constructor)
             ltac:(cbn; apply NoDup_cons; split;
                   [string_not_in | apply NoDup_singleton])
             (Scenario.request "B" ["b1"] ["chat"]) "chat").
    + apply list_elem_of_further, list_elem_of_here.
    + by apply list_elem_of_here.
Defined.

(** C2, counterexample.  [A] claims the bare name ["chat"], [B]
    registers the same model, and [B]'s model list is then updated
    (to the list it already had): the bare entry resolved to [A]
    before the update and resolves to [B] after it. *)
Lemma first_claim_lost_on_update :
  (LLMProvider.name ∘ RequestRouteInfo.provider <$>
     resolveModelRoute Scenario.shared "chat") = Some "A"%string ∧
  (LLMProvider.name ∘ RequestRouteInfo.provider <$>
     resolveModelRoute Scenario.shared_after_update "chat") = Some "B"%string.
Proof. split; vm_compute; reflexivity. Qed.

End FirstClaim.

Section UpdateModels.
Import ProviderService.

Lemma string_length_app (a b : string) :
  String.length (a +:+ b) = (String.length a + String.length b)%nat.
Proof. induction a as [|c a IH]; simpl; [done|]. by rewrite IH. Qed.

Lemma comma_join_ne_self (a b : string) : comma_join a b ≠ b.
Proof.
  intros H. apply (f_equal String.length) in H.
  unfold comma_join in H. rewrite !string_length_app in H. simpl in H. lia.
Qed.

(** C1, as amended.  Let [provider], stored under [id], have the model
    list [[m1]], and let the update carry [models = [m2]].  After
    [updateProvider]: the bare entry [m1] is gone, whoever owned it
    (unless [m1] is [m2] or the qualified name of [m2], which the
    insertion writes again); the qualified entry ["name,m2"] holds the
    provider's route for [m2]; the bare entry [m2] exists, is the
    provider's route when no bare entry for [m2] was there (or when
    [m2 = m1]), and is the previous entry when [m2] differs from [m1]
    and is not a qualified name ["x,m1"] of [m1] (first claim wins);
    every entry under a key other than [m1], [m2] and ["name,m2"]
    that is not a qualified name ["x,m1"] of [m1] is unchanged. *)
Theorem updateProvider_models_routes
  (this : ProviderService.t) (id : string) (provider : LLMProvider.t)
  (updates : ProviderUpdate.t) (m1 m2 : string) (now : Z) :
  JsMap.get id (providers this) = Some provider →
  LLMProvider.models provider = [m1] →
  ProviderUpdate.models updates = Some [m2] →
  let name := LLMProvider.name provider in
  let routes := modelRoutes this in
  let routes' := modelRoutes (updateProvider this id updates now).2 in
  (m1 ≠ m2 → m1 ≠ comma_join name m2 → routes' !! m1 = None) ∧
  routes' !! comma_join name m2 = Some (routeOf name m2) ∧
  is_Some (routes' !! m2) ∧
  (routes !! m2 = None ∨ m2 = m1 → routes' !! m2 = Some (routeOf name m2)) ∧
  (∀ r, m2 ≠ m1 → (∀ x, m2 ≠ comma_join x m1) →
        routes !! m2 = Some r → routes' !! m2 = Some r) ∧
  (∀ k, k ≠ m1 → k ≠ m2 → k ≠ comma_join name m2 →
        (∀ x, k ≠ comma_join x m1) →
        routes' !! k = routes !! k).
Proof.
  intros Hp Hold Hnew name routes routes'.
  assert (Hroutes : routes' =
            insertRoutes name [m2]
              (deleteRoutes (template_string (LLMProvider.id provider)) [m1] routes)).
  { subst routes'. rewrite (updateProvider_modelRoutes _ _ _ _ _ _ Hp Hnew).
    by rewrite Hold. }
  rewrite Hroutes. clear Hroutes routes'.
  assert (Hm2 : m2 ∈ [m2]) by apply list_elem_of_here.
  assert (Hm1 : m1 ∈ [m1]) by apply list_elem_of_here.
  split; [|split; [|split; [|split; [|split]]]].
  - intros Hne1 Hne2. rewrite insertRoutes_frame.
    + by apply deleteRoutes_bare.
    + intros x ->%list_elem_of_singleton. done.
  - by apply insertRoutes_full.
  - by apply insertRoutes_bare_is_Some.
  - intros Hfree. apply insertRoutes_bare_fresh; [|done|].
    + destruct Hfree as [Hnone| ->];
        [by apply deleteRoutes_None | by apply deleteRoutes_bare].
    + intros x ->%list_elem_of_singleton. apply comma_join_ne_self.
  - intros r Hne1 Hne2 Hr. apply insertRoutes_keep.
    + intros x ->%list_elem_of_singleton. apply comma_join_ne_self.
    + rewrite deleteRoutes_frame; [done|].
      intros x ->%list_elem_of_singleton. split; [|done].
      apply not_eq_sym, Hne2.
  - intros k Hk1 Hk3 Hk4 Hk2. rewrite insertRoutes_frame.
    + apply deleteRoutes_frame. intros x ->%list_elem_of_singleton.
      split; [|done]. apply not_eq_sym, Hk2.
    + intros x ->%list_elem_of_singleton. done.
Qed.

Lemma updateProvider_models_routes_witness :
  modelRoutes Scenario.both_m1_and_other_after_update !! "m1"%string = None ∧
  modelRoutes Scenario.both_m1_and_other_after_update !! "P,m2"%string =
    Some (routeOf "P" "m2") ∧
  modelRoutes Scenario.both_m1_and_other_after_update !! "m2"%string =
    Some (routeOf "P" "m2") ∧
  modelRoutes Scenario.both_m1_and_other_after_update !! "other"%string =
    modelRoutes Scenario.both_m1_and_other !! "other"%string ∧
  modelRoutes Scenario.both_m1_and_other_after_update !! "Q,other"%string =
    modelRoutes Scenario.both_m1_and_other !! "Q,other"%string.
Proof.
  destruct (updateProvider_models_routes Scenario.both_m1_and_other "P"
              (LLMProvider.of_request (Scenario.request "P" ["p1"] ["m1"]))
              (Scenario.models_update ["m2"]) "m1" "m2" 0)
    as (Hgone & Hfull & _ & Hbare & _ & Hframe);
    [reflexivity..|].
  split; [by apply Hgone|]. split; [exact Hfull|].
  split; [apply Hbare; left; reflexivity|].
  split.
  - apply Hframe; [discriminate..|].
    intros x Hx. symmetry in Hx. by apply no_comma_not_join in Hx.
  - apply Hframe; [discriminate..|].
    intros x Hx. unfold comma_join in Hx.
    do 8 (destruct x as [|? x]; cbn in Hx; [discriminate Hx|]).
    discriminate Hx.
Defined.

(** C1, counterexample.  [Q] owns the bare route ["m1"]; provider [P],
    registered with the model list [["m1"]], is updated to [["m2"]];
    the route owned by [Q] is no longer in the table. *)
Lemma updateProvider_removes_foreign_bare_route :
  LLMProvider.models <$> getProvider Scenario.both_m1 "P" =
    Some ["m1"%string] ∧
  modelRoutes Scenario.both_m1 !! "m1"%string = Some (routeOf "Q" "m1") ∧
  modelRoutes Scenario.both_m1_after_update !! "m1"%string = None ∧
  resolveModelRoute Scenario.both_m1_after_update "m1" = None.
Proof. repeat split; vm_compute; reflexivity. Qed.

(** The deletion loop of [updateProvider] builds its qualified key from
    [provider.id], which registration leaves [undefined]: the key
    deleted is ["undefined,m1"], and ["P,m1"] stays. *)
Lemma updateProvider_keeps_old_qualified_route :
  modelRoutes Scenario.both_m1_after_update !! "P,m1"%string =
    Some (routeOf "P" "m1").
Proof. vm_compute. reflexivity. Qed.

End UpdateModels.

Section DeleteAndKeys.
Import ProviderService.

Lemma deleteProvider_unregistered (this : ProviderService.t) (id : string) :
  JsMap.get id (providers this) = None →
  deleteProvider this id = (false, this).
Proof. intros H. unfold deleteProvider. by rewrite H. Qed.

(** What [deleteProvider] does for a registered name: the record is
    removed, the routes of its current model list are removed, and the
    [keySelectors] map is passed on as it is. *)
Lemma deleteProvider_registered (this : ProviderService.t) (id : string)
  (provider : LLMProvider.t) :
  JsMap.get id (providers this) = Some provider →
  let this' := (deleteProvider this id).2 in
  (deleteProvider this id).1 = true ∧
  getProvider this' id = None ∧
  (∀ m, m ∈ LLMProvider.models provider →
        modelRoutes this' !! m = None ∧
        modelRoutes this' !! comma_join (LLMProvider.name provider) m = None) ∧
  keySelectors this' = keySelectors this.
Proof.
  intros Hp. unfold deleteProvider. rewrite Hp. cbn.
  split; [done|]. split; [apply JsMap_get_delete_eq|]. split; [|done].
  intros m Hm. split; [by apply deleteRoutes_bare | by apply deleteRoutes_full].
Qed.

(** C3, at the failing input.  Provider ["P"] with keys
    [["k1"; "k2"]] and model ["m"] is registered and deleted:
    [deleteProvider] returns [true], the record and the routes are
    gone and the model is no longer listed, but the key selector is
    still in [keySelectors], and [selectApiKey("P")] returns the first
    key instead of failing with [UnknownProvider]. *)
Theorem deleteProvider_leaves_key_selector :
  deleteProvider Scenario.single "P" = (true, Scenario.single_deleted) ∧
  getProvider Scenario.single_deleted "P" = None ∧
  modelRoutes Scenario.single_deleted = ∅ ∧
  getAvailableModelNames Scenario.single_deleted = [] ∧
  keySelectors Scenario.single_deleted !! "P"%string =
    Some (ApiKeySelector.new ["k1"; "k2"]%string (Some RoundRobin)) ∧
  getApiKeyCount Scenario.single_deleted "P" = 2%nat ∧
  ∃ this',
    selectApiKey Scenario.single_deleted "P" None 0%Q =
      Ok (ApiKeySelector.mkSelected (Some "k1"%string) (Some 0), this').
Proof.
  repeat split; try (vm_compute; reflexivity).
  eexists. vm_compute. reflexivity.
Qed.

(** C4, as amended.  For a name that has no key selector,
    [selectApiKey] throws the [UnknownProvider] error whatever
    [excludeIndex] is, and [getApiKeyCount] returns 0. *)
Theorem key_queries_without_selector
  (this : ProviderService.t) (providerName : string)
  (excludeIndex : option Z) (rnd : Q) :
  keySelectors this !! providerName = None →
  selectApiKey this providerName excludeIndex rnd =
    Throw (UnknownProvider providerName) ∧
  getApiKeyCount this providerName = 0%nat.
Proof.
  intros H. unfold selectApiKey, getApiKeyCount. by rewrite H.
Qed.

(** A name that was never registered has no key selector. *)
Lemma never_registered_no_selector
  (requests : list RegisterProviderRequest.t) (providerName : string) :
  providerName ∉ RegisterProviderRequest.name <$> requests →
  keySelectors (Scenario.registered requests) !! providerName = None.
Proof. intros H. by apply registerAll_keySelectors_None. Qed.

Lemma key_queries_without_selector_witness :
  selectApiKey Scenario.shared "ghost" (Some 0) 0%Q =
    Throw (UnknownProvider "ghost") ∧
  getApiKeyCount Scenario.shared "ghost" = 0%nat.
Proof.
  apply key_queries_without_selector.
  apply never_registered_no_selector. string_not_in.
Defined.

(** C4, counterexample.  ["ghost"] is not registered, and
    [getApiKeyCount("ghost")] returns the number 0: the call does not
    end in an [UnknownProvider] failure. *)
Lemma getApiKeyCount_unregistered_returns_zero :
  getProvider Scenario.shared "ghost" = None ∧
  getApiKeyCount Scenario.shared "ghost" = 0%nat ∧
  (Ok (getApiKeyCount Scenario.shared "ghost") : Result nat) ≠
    Throw (UnknownProvider "ghost").
Proof.
  split; [vm_compute; reflexivity|].
  split; [vm_compute; reflexivity | discriminate].
Qed.

End DeleteAndKeys.

Section BulkInitialization.
Import ProviderService.
Variable buildTransformer : TransformerConfig → Result Transformer.

Lemma checkedConfig_invalid (c : ConfigProvider.t) :
  invalidConfig c → checkedConfig c = None.
Proof.
  unfold invalidConfig, checkedConfig.
  intros [H|[H|[H|[H|H]]]].
  - by rewrite H.
  - by rewrite H.
  - rewrite H. by destruct (truthy_string _).
  - rewrite H. by destruct (truthy_string _).
  - destruct (ConfigProvider.api_key c) as [| |[|]];
      by repeat destruct (truthy_string _).
Qed.

Lemma checkedConfig_keys (c : ConfigProvider.t) name url ks :
  checkedConfig c = Some (name, url, ks) → ∃ k ks', ks = k :: ks'.
Proof.
  unfold checkedConfig. intros H.
  repeat destruct (truthy_string _); try done.
  destruct (ConfigProvider.api_key c) as [| |[|k ks']]; try done.
  injection H as _ _ <-. eauto.
Qed.

(** The log is only appended to: the state reached does not depend on
    it. *)
Lemma initializeOne_state (s : ProviderService.t) (log log' : list LogEntry)
  (c : ConfigProvider.t) :
  (initializeOne buildTransformer (s, log) c).1 =
  (initializeOne buildTransformer (s, log') c).1.
Proof.
  unfold initializeOne. destruct (checkedConfig c) as [[[name url] ks]|]; [|done].
  destruct (ConfigProvider.transformer c) as [cfg|]; [|done].
  by destruct (buildTransformer cfg).
Qed.

Lemma initialize_state (cs : list ConfigProvider.t)
  (s : ProviderService.t) (log log' : list LogEntry) :
  (foldl (initializeOne buildTransformer) (s, log) cs).1 =
  (foldl (initializeOne buildTransformer) (s, log') cs).1.
Proof.
  revert s log log'. induction cs as [|c cs IH]; intros s log log'; [done|].
  cbn [foldl].
  pose proof (initializeOne_state s log log' c) as Hs.
  destruct (initializeOne buildTransformer (s, log) c) as [s1 l1].
  destruct (initializeOne buildTransformer (s, log') c) as [s2 l2].
  cbn in Hs. subst s2. apply IH.
Qed.

Lemma initializeOne_keys_nonempty (s : ProviderService.t)
  (log : list LogEntry) (c : ConfigProvider.t) :
  keys_nonempty s →
  keys_nonempty (initializeOne buildTransformer (s, log) c).1.
Proof.
  intros Hinv. unfold initializeOne.
  destruct (checkedConfig c) as [[[name url] keys]|] eqn:Hc; [|done].
  destruct (checkedConfig_keys _ _ _ _ Hc) as (k & ks & ->).
  assert (Hreg : ∀ tr,
    keys_nonempty
      (registerProvider s
         (RegisterProviderRequest.mk name url (k :: ks)
            (Some (default RoundRobin (ConfigProvider.api_key_strategy c)))
            (default [] (ConfigProvider.models c)) tr)).2).
  { intros tr n p. unfold getProvider. cbn.
    destruct (decide (name = n)) as [->|Hne].
    - rewrite JsMap_get_set_eq, lookup_insert_eq. intros [= <-].
      eexists k, ks, _. done.
    - rewrite JsMap_get_set_ne, lookup_insert_ne by done. apply Hinv. }
  destruct (ConfigProvider.transformer c) as [cfg|]; [|apply Hreg].
  destruct (buildTransformer cfg); [apply Hreg|done].
Qed.

Lemma initialize_keys_nonempty (cs : list ConfigProvider.t)
  (s : ProviderService.t) (log : list LogEntry) :
  keys_nonempty s →
  keys_nonempty (foldl (initializeOne buildTransformer) (s, log) cs).1.
Proof.
  revert s log. induction cs as [|c cs IH]; intros s log Hinv; [done|].
  cbn [foldl].
  pose proof (initializeOne_keys_nonempty s log c Hinv) as H1.
  destruct (initializeOne buildTransformer (s, log) c) as [s1 l1].
  by apply IH.
Qed.

(** C5, as amended.  In bulk initialization an entry without name,
    without base URL, or whose [api_key] is not a non-empty array, is
    answered by one warning and nothing else: no provider, no key
    selector and no route is stored for it, and the entries after it
    are processed from the state reached before it, so the final
    state is the one reached without the entry.  Hence every provider
    present after initializing an empty service has a non-empty key
    array, used by its key selector.  [registerProvider] itself
    checks nothing: whatever the request, it stores the provider
    built from it and a key selector over its keys. *)
Theorem initialize_skips_invalid
  (this : ProviderService.t) (before after : list ConfigProvider.t)
  (c : ConfigProvider.t) :
  invalidConfig c →
  let run := initializeFromProvidersArray buildTransformer in
  (∀ log, initializeOne buildTransformer (this, log) c =
          (this, log ++ [LogWarn (ConfigProvider.name c)])) ∧
  run this (before ++ c :: after) =
    foldl (initializeOne buildTransformer)
      ((run this before).1,
       (run this before).2 ++ [LogWarn (ConfigProvider.name c)]) after ∧
  (run this (before ++ c :: after)).1 = (run this (before ++ after)).1 ∧
  (∀ configs, keys_nonempty (run empty configs).1) ∧
  (∀ s request,
     getProvider (registerProvider s request).2
       (RegisterProviderRequest.name request) =
       Some (LLMProvider.of_request request) ∧
     keySelectors (registerProvider s request).2
       !! RegisterProviderRequest.name request =
       Some (ApiKeySelector.new (RegisterProviderRequest.apiKey request)
               (Some (default RoundRobin
                        (RegisterProviderRequest.apiKeyStrategy request))))).
Proof.
  intros Hbad run.
  assert (Hone : ∀ s log, initializeOne buildTransformer (s, log) c =
                          (s, log ++ [LogWarn (ConfigProvider.name c)])).
  { intros s log. unfold initializeOne. by rewrite checkedConfig_invalid. }
  assert (Hrun : run this (before ++ c :: after) =
    foldl (initializeOne buildTransformer)
      ((run this before).1,
       (run this before).2 ++ [LogWarn (ConfigProvider.name c)]) after).
  { subst run. unfold initializeFromProvidersArray.
    rewrite foldl_app. cbn [foldl].
    destruct (foldl (initializeOne buildTransformer) (this, []) before)
      as [s1 l1].
    by rewrite Hone. }
  split; [apply Hone|]. split; [done|]. split; [|split].
  - rewrite Hrun. subst run. unfold initializeFromProvidersArray.
    rewrite foldl_app.
    destruct (foldl (initializeOne buildTransformer) (this, []) before)
      as [s1 l1].
    apply initialize_state.
  - intros configs. apply initialize_keys_nonempty. by intros n p.
  - intros s request. split.
    + apply registerProvider_getProvider.
    + apply lookup_insert_eq.
Qed.

End BulkInitialization.

Section BulkInitializationExamples.
Import ProviderService.

Lemma initialize_skips_invalid_witness :
  initializeFromProvidersArray (λ _, Throw (ExternalError "unused"))
    empty Scenario.mixed_configs =
  (registerAll empty
     [RegisterProviderRequest.mk "a" "https://api.example/v1/" ["a1"]
        (Some RoundRobin) ["a-model"] None;
      RegisterProviderRequest.mk "b" "https://api.example/v1/" ["b1"; "b2"]
        (Some RoundRobin) ["b-model"] None],
   [LogInfo "a" 1 RoundRobin; LogWarn (Some "bad"%string);
    LogInfo "b" 2 RoundRobin]).
Proof.
  destruct (initialize_skips_invalid (λ _, Throw (ExternalError "unused"))
              empty [Scenario.config "a" (ConfigKeyArray ["a1"]%string)]
              [Scenario.config "b" (ConfigKeyArray ["b1"; "b2"]%string)]
              (Scenario.config "bad" (ConfigKeyArray [])))
    as (_ & Hrun & _).
  - unfold invalidConfig. cbn. tauto.
  - etransitivity; [exact Hrun|]. reflexivity.
Defined.

(** C5, counterexample.  [registerProvider] called with an empty base
    URL and an empty key array stores the provider, creates a key
    selector over no keys, and inserts the routes. *)
Lemma registerProvider_accepts_empty_keys :
  RegisterProviderRequest.baseUrl Scenario.keyless = ""%string ∧
  RegisterProviderRequest.apiKey Scenario.keyless = [] ∧
  getProvider (registerProvider empty Scenario.keyless).2 "p" =
    Some (LLMProvider.of_request Scenario.keyless) ∧
  LLMProvider.apiKey (LLMProvider.of_request Scenario.keyless) = KeyList [] ∧
  keySelectors (registerProvider empty Scenario.keyless).2 !! "p"%string =
    Some (ApiKeySelector.new [] (Some RoundRobin)) ∧
  modelRoutes (registerProvider empty Scenario.keyless).2 !! "p,m"%string =
    Some (routeOf "p" "m") ∧
  modelRoutes (registerProvider empty Scenario.keyless).2 !! "m"%string =
    Some (routeOf "p" "m").
Proof. repeat split; vm_compute; reflexivity. Qed.

End BulkInitializationExamples.

(** ** GeminiTransformer *)

Section GeminiRequest.
Variable UnifiedChatRequest : Type.
Variable model : UnifiedChatRequest → string.
Variable stream : UnifiedChatRequest → option bool.
Variable Body : Type.
Variable buildRequestBody : UnifiedChatRequest → Result Body.
Variable URL : Type.
Variable URL_new : string → string → Result URL.

(** C9.  Whenever the body can be built and the URL constructor
    accepts its arguments, [transformRequestIn] returns a request
    whose URL is [new URL("./<model>:<action>", baseUrl)], the action
    being ["streamGenerateContent?alt=sse"] for a streaming request
    and ["generateContent"] otherwise; the [x-goog-api-key] header
    carries the provider's (first) API key; the [Authorization] header
    is present and set to [undefined]; no other header carries a
    value. *)
Theorem transformRequestIn_wire_format
  (request : UnifiedChatRequest) (provider : LLMProvider.t)
  (b : Body) (u : URL) :
  buildRequestBody request = Ok b →
  URL_new
    ("./" +:+ model request +:+ ":" +:+
     (if bool_decide (stream request = Some true)
      then "streamGenerateContent?alt=sse" else "generateContent"))%string
    (LLMProvider.baseUrl provider) = Ok u →
  ∃ out,
    GeminiTransformer.transformRequestIn UnifiedChatRequest model stream
      Body buildRequestBody URL URL_new request provider = Ok out ∧
    GeminiTransformer.body _ _ out = b ∧
    GeminiTransformer.url _ (GeminiTransformer.config _ _ out) = u ∧
    let headers := GeminiTransformer.headers _ (GeminiTransformer.config _ _ out) in
    JsMap.get "x-goog-api-key" headers =
      Some (match LLMProvider.apiKey provider with
            | KeyList ks => ks !! 0%nat
            | SingleKey k => Some k
            end) ∧
    JsMap.get "Authorization" headers = Some None ∧
    ∀ h v, JsMap.get h headers = Some (Some v) → h = "x-goog-api-key"%string.
Proof.
  intros Hbody Hurl.
  assert (Hrel : GeminiTransformer.relativeUrl _ model stream request =
    ("./" +:+ model request +:+ ":" +:+
     (if bool_decide (stream request = Some true)
      then "streamGenerateContent?alt=sse" else "generateContent"))%string).
  { unfold GeminiTransformer.relativeUrl, GeminiTransformer.action.
    by destruct (stream request) as [[|]|]. }
  unfold GeminiTransformer.transformRequestIn.
  rewrite Hbody, Hrel, Hurl. eexists. split; [reflexivity|].
  cbn. split; [done|]. split; [done|]. split.
  { unfold GeminiTransformer.firstApiKey.
    by destruct (LLMProvider.apiKey provider). }
  split; [done|].
  intros h v.
  destruct (String.eqb_spec h "x-goog-api-key"); [done|].
  by destruct (String.eqb_spec h "Authorization").
Qed.

End GeminiRequest.

Lemma transformRequestIn_wire_format_witness :
  ∃ out,
    GeminiTransformer.transformRequestIn (string * option bool) fst snd
      unit (λ _, Ok ()) string (λ relative base, Ok (base +:+ relative)%string)
      ("gemini-pro"%string, Some true)
      (LLMProvider.mk None "gemini" "https://host/v1beta/models/"
         (KeyList ["k1"; "k2"]%string) None ["gemini-pro"%string] None None) =
      Ok out ∧
    GeminiTransformer.url _ (GeminiTransformer.config _ _ out) =
      "https://host/v1beta/models/./gemini-pro:streamGenerateContent?alt=sse"%string ∧
    JsMap.get "x-goog-api-key" (GeminiTransformer.headers _ (GeminiTransformer.config _ _ out)) =
      Some (Some "k1"%string) ∧
    JsMap.get "Authorization" (GeminiTransformer.headers _ (GeminiTransformer.config _ _ out)) =
      Some None.
Proof.
  destruct (transformRequestIn_wire_format (string * option bool) fst snd
              unit (λ _, Ok ()) string
              (λ relative base, Ok (base +:+ relative)%string)
              ("gemini-pro"%string, Some true)
              (LLMProvider.mk None "gemini" "https://host/v1beta/models/"
                 (KeyList ["k1"; "k2"]%string) None ["gemini-pro"%string]
                 None None)
              () "https://host/v1beta/models/./gemini-pro:streamGenerateContent?alt=sse"%string)
    as (out & Hout & _ & Hu & Hkey & Hauth & _); [reflexivity..|].
  exists out. split; [exact Hout|]. split; [exact Hu|].
  split; [exact Hkey | exact Hauth].
Defined.

(** * Further properties *)

(** ** Key selection, all strategies *)

Section SelectorSafety.
Import ApiKeySelector.

(** The draw among the indices other than [e]. *)
Lemma random_excluding_in_range (len : nat) (e : Z) (rnd : Q) :
  (1 < len)%nat → (0 <= rnd)%Q → (rnd < 1)%Q →
  ∃ i, js_index (availableIndices len e)
         (random_index rnd (length (availableIndices len e))) = Some i ∧
       0 ≤ i < Z.of_nat len ∧ i ≠ e.
Proof.
  intros Hlen Hlo Hhi.
  pose proof (availableIndices_nonempty len e Hlen) as Hne.
  pose proof (random_index_range rnd _ Hlo Hhi Hne) as Hr.
  destruct (js_index_in_range _ _ Hr) as (i & Hi & Hi').
  exists i. split; [done|].
  apply availableIndices_elem. eapply list_elem_of_lookup_2; eauto.
Qed.

Lemma successor_differs (e n : Z) : 0 ≤ e → 2 ≤ n → (e + 1) mod n ≠ e.
Proof.
  intros He Hn Heq.
  pose proof (Z.div_mod (e + 1) n ltac:(lia)) as Hdiv.
  rewrite Heq in Hdiv. set (q := (e + 1) `div` n) in Hdiv.
  destruct (decide (q ≤ 0)); nia.
Qed.

(** X1. On a selector that can exist at run time and has at least one
    key, every call, whatever the strategy and [excludeIndex], and
    for every draw in [0,1), returns a key and an index such that the
    index is valid and the key is the one stored at that index; the
    selector after the call has the same keys and strategy. *)
Theorem selectKey_returns_stored_key (this : t) (excludeIndex : option Z)
  (rnd : Q) :
  reachable this →
  (0 < length (keys this))%nat →
  (0 <= rnd)%Q → (rnd < 1)%Q →
  ∃ i k this',
    selectKey this excludeIndex rnd = Ok (mkSelected (Some k) (Some i), this') ∧
    0 ≤ i < Z.of_nat (length (keys this)) ∧
    keys this !! Z.to_nat i = Some k ∧
    keys this' = keys this ∧ strategy this' = strategy this ∧
    getKeyCount this' = getKeyCount this.
Proof.
  intros Hreach Hlen Hlo Hhi.
  assert (Hc := reachable_cursor_in_range this Hreach ltac:(lia)).
  assert (Hshape : ∀ i this',
    0 ≤ i < Z.of_nat (length (keys this)) →
    keys this' = keys this → strategy this' = strategy this →
    selectKey this excludeIndex rnd =
      Ok (mkSelected (js_index (keys this) i) (Some i), this') →
    ∃ i k this',
      selectKey this excludeIndex rnd = Ok (mkSelected (Some k) (Some i), this') ∧
      0 ≤ i < Z.of_nat (length (keys this)) ∧
      keys this !! Z.to_nat i = Some k ∧
      keys this' = keys this ∧ strategy this' = strategy this ∧
      getKeyCount this' = getKeyCount this).
  { intros i this' Hi Hk Hs Hsel.
    destruct (js_index_in_range (keys this) i Hi) as (k & Hk1 & Hk2).
    exists i, k, this'. rewrite Hsel, Hk1. unfold getKeyCount. by rewrite Hk. }
  destruct (decide (length (keys this) = 1%nat)) as [Hone|Hmany].
  { apply (Hshape 0 this); [lia|done|done|].
    unfold selectKey. rewrite Hone. reflexivity. }
  assert (Hlen2 : 2 ≤ Z.of_nat (length (keys this))) by lia.
  pose proof (selectKey_dispatch this excludeIndex rnd Hlen2) as Hsel.
  set (e := default (-1) excludeIndex) in *.
  destruct (strategy this) eqn:Hs; cbv zeta in Hsel.
  - destruct (decide (0 ≤ e)) as [He|He].
    + destruct (successor_in_range this e Hlen2 He) as (Hrem & Hr & _).
      rewrite bool_decide_eq_true_2, Hrem in Hsel by done.
      refine (Hshape _ _ _ _ _ Hsel); done.
    + rewrite bool_decide_eq_false_2 in Hsel by done.
      refine (Hshape _ _ _ _ _ Hsel); first [done | exact Hs].
  - destruct (decide (0 ≤ e)) as [He|He].
    + rewrite !bool_decide_eq_true_2 in Hsel by lia. cbn [andb] in Hsel.
      destruct (random_excluding_in_range (length (keys this)) e rnd)
        as (i & Hi & Hr & _); [lia|done|done|].
      rewrite Hi in Hsel. cbn [mbind option_bind] in Hsel.
      refine (Hshape _ _ _ _ _ Hsel); done.
    + rewrite (bool_decide_eq_false_2 (0 ≤ e)) in Hsel by done.
      cbn [andb mbind option_bind] in Hsel.
      refine (Hshape _ _ _ _ _ Hsel); [|done|done].
      apply random_index_range; [done|done|lia].
  - destruct (decide (0 ≤ e)) as [He|He].
    + destruct (successor_in_range this e Hlen2 He) as (Hrem & Hr & _).
      rewrite bool_decide_eq_true_2, Hrem in Hsel by done.
      refine (Hshape _ _ _ _ _ Hsel); first [done | exact Hs].
    + rewrite bool_decide_eq_false_2 in Hsel by done.
      refine (Hshape _ _ _ _ _ Hsel); done.
Qed.

Lemma selectKey_returns_stored_key_witness :
  ∃ i k this',
    selectKey (new ["k1"; "k2"; "k3"]%string (Some Random)) None (1 # 2) =
      Ok (mkSelected (Some k) (Some i), this') ∧
    0 ≤ i < 3.
Proof.
  destruct (selectKey_returns_stored_key
              (new ["k1"; "k2"; "k3"]%string (Some Random)) None (1 # 2))
    as (i & k & this' & Hsel & Hi & _);
    [apply reachable_new | simpl; lia | unfold Qle; simpl; lia | reflexivity |].
  exists i, k, this'. split; [exact Hsel | exact Hi].
Defined.

(** X2. With at least two keys, a failure call never hands back the
    key that failed: for every strategy, every [excludeIndex >= 0]
    (also one that is not an index of [keys]) and every draw in
    [0,1), the returned index is valid and differs from
    [excludeIndex]. *)
Theorem selectKey_never_returns_failed_key (this : t) (e : Z) (rnd : Q) :
  2 ≤ Z.of_nat (length (keys this)) → 0 ≤ e →
  (0 <= rnd)%Q → (rnd < 1)%Q →
  ∃ i k this',
    selectKey this (Some e) rnd = Ok (mkSelected (Some k) (Some i), this') ∧
    0 ≤ i < Z.of_nat (length (keys this)) ∧
    keys this !! Z.to_nat i = Some k ∧
    i ≠ e.
Proof.
  intros Hlen He Hlo Hhi.
  destruct (successor_in_range this e Hlen He) as (Hrem & Hr & k & Hk & Hk').
  pose proof (successor_differs e _ He Hlen) as Hne.
  rewrite selectKey_dispatch by done.
  destruct (strategy this); cbv zeta; cbn [default from_option id].
  - rewrite bool_decide_eq_true_2 by done. rewrite Hrem, Hk. eauto 10.
  - rewrite !bool_decide_eq_true_2 by lia. cbn [andb].
    destruct (random_excluding_in_range (length (keys this)) e rnd)
      as (i & Hi & Hrange & Hdiff); [lia|done|done|].
    destruct (js_index_in_range (keys this) i Hrange) as (k' & Hk1 & Hk2).
    rewrite Hi. cbn [mbind option_bind]. rewrite Hk1. eauto 10.
  - rewrite bool_decide_eq_true_2 by done. rewrite Hrem, Hk. eauto 10.
Qed.

Lemma selectKey_never_returns_failed_key_witness :
  ∃ i k this',
    selectKey (new ["k1"; "k2"]%string (Some Failover)) (Some 7) 0%Q =
      Ok (mkSelected (Some k) (Some i), this') ∧
    0 ≤ i < 2 ∧ i ≠ 7.
Proof.
  destruct (selectKey_never_returns_failed_key
              (new ["k1"; "k2"]%string (Some Failover)) 7 0%Q)
    as (i & k & this' & Hsel & Hi & _ & Hne);
    [simpl; lia | lia | unfold Qle; simpl; lia | reflexivity |].
  exists i, k, this'. split; [exact Hsel|]. split; [exact Hi | exact Hne].
Defined.

End SelectorSafety.

(** ** More on the insertion-ordered map *)

Section JsMapOrder.
Context {V : Type}.
Implicit Types (m : JsMap.t V) (k : string) (v : V).

Lemma JsMap_keys_set_present m k v :
  is_Some (JsMap.get k m) → (JsMap.set k v m).*1 = m.*1.
Proof.
  induction m as [|[k' v'] m IH]; cbn [JsMap.get JsMap.set].
  - by intros [? ?].
  - destruct (String.eqb_spec k k') as [->|Hne]; [done|].
    intros H. rewrite !fmap_cons. f_equal. by apply IH.
Qed.

Lemma JsMap_keys_set_absent m k v :
  JsMap.get k m = None → (JsMap.set k v m).*1 = m.*1 ++ [k].
Proof.
  induction m as [|[k' v'] m IH]; cbn [JsMap.get JsMap.set]; [done|].
  destruct (String.eqb_spec k k') as [->|Hne]; [done|].
  intros H. rewrite !fmap_cons. cbn [app]. f_equal. by apply IH.
Qed.

Lemma JsMap_get_None_keys m k : JsMap.get k m = None ↔ k ∉ m.*1.
Proof.
  induction m as [|[k' v'] m IH]; cbn [JsMap.get].
  - split; [intros _; apply not_elem_of_nil | done].
  - rewrite fmap_cons, not_elem_of_cons. cbn [fst].
    destruct (String.eqb_spec k k') as [->|Hne].
    + split; [done | by intros [? _]].
    + rewrite IH. split; [done | by intros [_ ?]].
Qed.

Lemma JsMap_keys_delete m k : (JsMap.delete k m).*1 = filter (λ k', k' ≠ k) m.*1.
Proof.
  induction m as [|[k' v'] m IH]; cbn [JsMap.delete]; [done|].
  rewrite fmap_cons. cbn [fst].
  destruct (String.eqb_spec k k') as [->|Hne].
  - rewrite filter_cons_False by naive_solver. done.
  - rewrite filter_cons_True by naive_solver. rewrite fmap_cons. cbn [fst].
    by rewrite IH.
Qed.

Lemma JsMap_get_elem m k v :
  NoDup m.*1 → (JsMap.get k m = Some v ↔ (k, v) ∈ m).
Proof.
  induction m as [|[k' v'] m IH]; cbn [JsMap.get]; intros Hnd.
  - split; [done | by intros ?%elem_of_nil].
  - rewrite fmap_cons in Hnd. apply NoDup_cons in Hnd as [Hk' Hnd].
    rewrite elem_of_cons.
    destruct (String.eqb_spec k k') as [->|Hne].
    + split; [intros [= ->]; by left|].
      intros [[= ->]|Hin]; [done|].
      destruct Hk'. apply list_elem_of_fmap. by exists (k', v).
    + rewrite IH by done. split; [by right|].
      intros [[= ? _]|?]; done.
Qed.

End JsMapOrder.

(** ** Single operations of the service *)

Section Operations.
Import ProviderService.
Implicit Types (this s : ProviderService.t).

Lemma updateProvider_keySelectors this id updates now :
  keySelectors (updateProvider this id updates now).2 = keySelectors this.
Proof. unfold updateProvider. by destruct (JsMap.get id (providers this)). Qed.

Lemma selectApiKey_inv this n e rnd selected this' :
  selectApiKey this n e rnd = Ok (selected, this') →
  ∃ selector selector',
    keySelectors this !! n = Some selector ∧
    ApiKeySelector.selectKey selector (Some (default (-1) e)) rnd =
      Ok (selected, selector') ∧
    this' = mk (providers this) (modelRoutes this)
              (<[n := selector']> (keySelectors this)).
Proof.
  unfold selectApiKey. destruct (keySelectors this !! n) as [sel|]; [|done].
  destruct (ApiKeySelector.selectKey sel _ rnd) as [[x sel']|] eqn:Hsel;
    [|done].
  intros [= <- <-]. by exists sel, sel'.
Qed.

(** X3. After [registerProvider(request)], in any state: every model
    [m] of the request resolves through its qualified name to the
    provider just stored, with target model [m]; the bare name [m] has
    an entry; when the bare name was free (and is not itself one of
    the qualified names written) it resolves to the provider just
    stored, and when it was taken the previous entry is kept. *)
Theorem registerProvider_routes this (request : RegisterProviderRequest.t)
  (m : string) :
  m ∈ RegisterProviderRequest.models request →
  let name := RegisterProviderRequest.name request in
  let this' := (registerProvider this request).2 in
  resolveModelRoute this' (comma_join name m) =
    Some (RequestRouteInfo.mk (LLMProvider.of_request request)
            (comma_join name m) m) ∧
  is_Some (modelRoutes this' !! m) ∧
  ((∀ x, x ∈ RegisterProviderRequest.models request → comma_join name x ≠ m) →
   (modelRoutes this !! m = None →
    resolveModelRoute this' m =
      Some (RequestRouteInfo.mk (LLMProvider.of_request request) m m)) ∧
   (∀ r, modelRoutes this !! m = Some r → modelRoutes this' !! m = Some r)).
Proof.
  intros Hin name this'.
  assert (Hp : JsMap.get name (providers this') =
               Some (LLMProvider.of_request request))
    by apply JsMap_get_set_eq.
  split; [|split].
  - apply (resolveModelRoute_lookup this' _ (routeOf name m)); [|done].
    by apply insertRoutes_full.
  - by apply insertRoutes_bare_is_Some.
  - intros Hne. split.
    + intros Hfree.
      apply (resolveModelRoute_lookup this' _ (routeOf name m)); [|done].
      by apply insertRoutes_bare_fresh.
    + intros r Hr. by apply insertRoutes_keep.
Qed.

Lemma registerProvider_routes_witness :
  resolveModelRoute Scenario.shared "B,chat" =
    Some (RequestRouteInfo.mk
            (LLMProvider.of_request (Scenario.request "B" ["b1"] ["chat"]))
            "B,chat" "chat") ∧
  modelRoutes Scenario.shared !! "chat"%string = Some (routeOf "A" "chat").
Proof.
  destruct (registerProvider_routes
              (Scenario.registered [Scenario.request "A" ["a1"; "a2"] ["chat"]])
              (Scenario.request "B" ["b1"] ["chat"]) "chat")
    as (Hq & _ & Hbare); [by apply list_elem_of_here|].
  split; [exact Hq|].
  apply Hbare.
  - intros x _. by apply no_comma_not_join.
  - vm_compute. reflexivity.
Defined.

(** X4. [registerProvider] touches nothing but its own entries: the
    records and key selectors stored under other names are as before,
    no route entry is ever removed, and a route entry whose key is
    neither a model of the request nor one of its qualified names is
    as before. *)
Theorem registerProvider_frame this (request : RegisterProviderRequest.t) :
  let name := RegisterProviderRequest.name request in
  let this' := (registerProvider this request).2 in
  (∀ n, n ≠ name →
        getProvider this' n = getProvider this n ∧
        keySelectors this' !! n = keySelectors this !! n) ∧
  (∀ k, is_Some (modelRoutes this !! k) → is_Some (modelRoutes this' !! k)) ∧
  (∀ k, (∀ x, x ∈ RegisterProviderRequest.models request →
              comma_join name x ≠ k ∧ x ≠ k) →
        modelRoutes this' !! k = modelRoutes this !! k).
Proof.
  intros name this'. split; [|split].
  - intros n Hne. split.
    + by apply JsMap_get_set_ne.
    + subst this'. cbn. by rewrite lookup_insert_ne.
  - intros k. apply insertRoutes_is_Some.
  - intros k. apply insertRoutes_frame.
Qed.

Lemma registerProvider_frame_witness :
  getProvider Scenario.shared "A" =
    getProvider (Scenario.registered [Scenario.request "A" ["a1"; "a2"] ["chat"]]) "A" ∧
  modelRoutes Scenario.shared !! "A,chat"%string =
    modelRoutes (Scenario.registered [Scenario.request "A" ["a1"; "a2"] ["chat"]])
      !! "A,chat"%string.
Proof.
  destruct (registerProvider_frame
              (Scenario.registered [Scenario.request "A" ["a1"; "a2"] ["chat"]])
              (Scenario.request "B" ["b1"] ["chat"]))
    as (Hother & _ & Hframe).
  split.
  - apply (Hother "A"%string). discriminate.
  - apply Hframe. intros x Hx. cbn in Hx.
    apply list_elem_of_singleton in Hx as ->. split; discriminate.
Defined.

(** X5. The selector made by [registerProvider] works on the keys of
    the request: [getApiKeyCount] is their number; with an empty key
    array [selectApiKey] fails with [NoKeysAvailable] whatever
    [excludeIndex] is; with a single key it returns that key at index
    0 whatever the strategy and [excludeIndex] are. *)
Theorem registerProvider_key_selector this
  (request : RegisterProviderRequest.t) (excludeIndex : option Z) (rnd : Q) :
  let name := RegisterProviderRequest.name request in
  let this' := (registerProvider this request).2 in
  getApiKeyCount this' name = length (RegisterProviderRequest.apiKey request) ∧
  (RegisterProviderRequest.apiKey request = [] →
   selectApiKey this' name excludeIndex rnd = Throw NoKeysAvailable) ∧
  (∀ k, RegisterProviderRequest.apiKey request = [k] →
        ∃ this'', selectApiKey this' name excludeIndex rnd =
                    Ok (ApiKeySelector.mkSelected (Some k) (Some 0), this'')).
Proof.
  intros name this'.
  assert (Hsel : keySelectors this' !! name =
    Some (ApiKeySelector.new (RegisterProviderRequest.apiKey request)
            (Some (default RoundRobin
                     (RegisterProviderRequest.apiKeyStrategy request)))))
    by apply lookup_insert_eq.
  unfold getApiKeyCount, selectApiKey. rewrite Hsel.
  split; [done|]. split.
  - intros ->. reflexivity.
  - intros k ->. eexists. reflexivity.
Qed.

Lemma registerProvider_key_selector_witness :
  selectApiKey (registerProvider empty Scenario.keyless).2 "p" (Some 3) 0%Q =
    Throw NoKeysAvailable.
Proof.
  destruct (registerProvider_key_selector empty Scenario.keyless (Some 3) 0%Q)
    as (_ & H & _).
  exact (H eq_refl).
Defined.

(** X6. A successful [selectApiKey] changes one thing only, the cursor
    of the selector of the named provider: the providers and the
    routes are as before, the selectors of other names are as before,
    and [getApiKeyCount] is as before for every name. *)
Theorem selectApiKey_frame this (providerName : string)
  (excludeIndex : option Z) (rnd : Q)
  (selected : ApiKeySelector.Selected) this' :
  selectApiKey this providerName excludeIndex rnd = Ok (selected, this') →
  providers this' = providers this ∧
  modelRoutes this' = modelRoutes this ∧
  (∀ n, n ≠ providerName → keySelectors this' !! n = keySelectors this !! n) ∧
  (∀ n, getApiKeyCount this' n = getApiKeyCount this n) ∧
  (∀ modelName, resolveModelRoute this' modelName =
                resolveModelRoute this modelName).
Proof.
  intros (sel & sel' & Hsel & Hkey & ->)%selectApiKey_inv.
  destruct (selectKey_keys _ _ _ _ _ Hkey) as [Hkeys _].
  split; [done|]. split; [done|]. split; [|split; [|done]].
  - intros n Hne. cbn. by rewrite lookup_insert_ne.
  - intros n. unfold getApiKeyCount. cbn.
    destruct (decide (providerName = n)) as [<-|Hne].
    + rewrite lookup_insert_eq, Hsel. unfold ApiKeySelector.getKeyCount.
      by rewrite Hkeys.
    + by rewrite lookup_insert_ne.
Qed.

Lemma selectApiKey_frame_witness :
  ∃ this',
    selectApiKey Scenario.shared "A" None 0%Q =
      Ok (ApiKeySelector.mkSelected (Some "a1"%string) (Some 0), this') ∧
    getApiKeyCount this' "A" = getApiKeyCount Scenario.shared "A" ∧
    providers this' = providers Scenario.shared.
Proof.
  eexists. split; [vm_compute; reflexivity|].
  match goal with
  | |- getApiKeyCount ?s _ = _ ∧ _ =>
      destruct (selectApiKey_frame Scenario.shared "A" None 0%Q
                  (ApiKeySelector.mkSelected (Some "a1"%string) (Some 0)) s)
        as (Hp & _ & _ & Hcount & _); [vm_compute; reflexivity|]
  end.
  split; [apply Hcount | exact Hp].
Defined.

End Operations.

Section UpdateAndDelete.
Import ProviderService.
Implicit Types (this s : ProviderService.t).

Lemma deleteRoutes_Some pre ms (R : gmap string ModelRoute.t) k r :
  deleteRoutes pre ms R !! k = Some r → R !! k = Some r.
Proof.
  revert R. induction ms as [|x ms IH]; intros R Hr; [done|].
  rewrite deleteRoutes_cons in Hr. apply IH in Hr. unfold deleteRoute in Hr.
  apply lookup_delete_Some in Hr as [_ Hr].
  by apply lookup_delete_Some in Hr as [_ Hr].
Qed.

(** X7. Every [updateProvider] call, whatever the update carries:
    returns [null] exactly when [id] is not registered, and then
    changes nothing; otherwise stores the merged record under [id];
    never changes the key selectors, the records of other providers,
    or the order of the providers; and leaves the route table alone
    unless the update carries [models]. *)
Theorem updateProvider_effects this (id : string)
  (updates : ProviderUpdate.t) (now : Z) :
  let result := (updateProvider this id updates now).1 in
  let this' := (updateProvider this id updates now).2 in
  (getProvider this id = None → result = None ∧ this' = this) ∧
  (∀ provider, getProvider this id = Some provider →
     result = Some (ProviderUpdate.apply provider updates now) ∧
     getProvider this' id = Some (ProviderUpdate.apply provider updates now)) ∧
  keySelectors this' = keySelectors this ∧
  (∀ n, n ≠ id → getProvider this' n = getProvider this n) ∧
  (providers this').*1 = (providers this).*1 ∧
  (ProviderUpdate.models updates = None → modelRoutes this' = modelRoutes this).
Proof.
  intros result this'. subst result this'. unfold getProvider, updateProvider.
  destruct (JsMap.get id (providers this)) as [provider|] eqn:Hp; cbn.
  - split; [done|]. split.
    { intros ? [= <-]. split; [done|]. apply JsMap_get_set_eq. }
    split; [done|]. split.
    { intros n Hne. by apply JsMap_get_set_ne. }
    split.
    { apply JsMap_keys_set_present. rewrite Hp. eauto. }
    by intros ->.
  - done.
Qed.

Lemma updateProvider_effects_witness :
  (updateProvider Scenario.shared "ghost" (Scenario.models_update ["x"]) 0).1 =
    None ∧
  (updateProvider Scenario.shared "ghost" (Scenario.models_update ["x"]) 0).2 =
    Scenario.shared.
Proof.
  destruct (updateProvider_effects Scenario.shared "ghost"
              (Scenario.models_update ["x"]) 0) as (H & _).
  apply H. vm_compute. reflexivity.
Defined.

(** X8. An update never changes key selection, also when it replaces
    [apiKey] or [apiKeyStrategy]: [selectApiKey] gives the same
    answer, error included, before and after [updateProvider], and
    leaves the same key selectors behind. *)
Theorem updateProvider_keeps_key_selection this (id : string)
  (updates : ProviderUpdate.t) (now : Z) (providerName : string)
  (excludeIndex : option Z) (rnd : Q) :
  let this' := (updateProvider this id updates now).2 in
  match selectApiKey this providerName excludeIndex rnd,
        selectApiKey this' providerName excludeIndex rnd with
  | Ok (selected, after), Ok (selected', after') =>
      selected' = selected ∧ keySelectors after' = keySelectors after
  | Throw e, Throw e' => e' = e
  | _, _ => False
  end.
Proof.
  intros this'. unfold selectApiKey.
  replace (keySelectors this') with (keySelectors this)
    by (symmetry; apply updateProvider_keySelectors).
  destruct (keySelectors this !! providerName) as [sel|]; [|done].
  by destruct (ApiKeySelector.selectKey sel _ rnd) as [[x sel']|].
Qed.

(** X9. [deleteProvider(id)] returns [true] exactly when [id] is
    registered; afterwards [getProvider(id)] is [undefined] in every
    case; an unregistered [id] changes nothing, so deleting twice is
    deleting once; the records of other providers and all key
    selectors are as before. *)
Theorem deleteProvider_effects this (id : string) :
  let result := (deleteProvider this id).1 in
  let this' := (deleteProvider this id).2 in
  (result = true ↔ is_Some (getProvider this id)) ∧
  getProvider this' id = None ∧
  (getProvider this id = None → this' = this) ∧
  deleteProvider this' id = (false, this') ∧
  (∀ n, n ≠ id → getProvider this' n = getProvider this n) ∧
  keySelectors this' = keySelectors this.
Proof.
  intros result this'.
  assert (Hgone : getProvider this' id = None).
  { subst this'. unfold getProvider, deleteProvider.
    destruct (JsMap.get id (providers this)) eqn:Hp; [|done].
    apply JsMap_get_delete_eq. }
  subst result this'. unfold getProvider in *. split; [|split; [done|]].
  - unfold deleteProvider.
    destruct (JsMap.get id (providers this)) eqn:Hp; cbn.
    + split; eauto.
    + split; [done|]. by intros [? ?].
  - split; [|split; [by apply deleteProvider_unregistered|]].
    + intros Hp. by rewrite deleteProvider_unregistered.
    + unfold deleteProvider.
      destruct (JsMap.get id (providers this)) eqn:Hp; [|done]. cbn.
      split; [|done]. intros n Hne. by apply JsMap_get_delete_ne.
Qed.

Lemma deleteProvider_effects_witness :
  (deleteProvider Scenario.single "ghost").2 = Scenario.single.
Proof.
  destruct (deleteProvider_effects Scenario.single "ghost") as (_ & _ & H & _).
  apply H. vm_compute. reflexivity.
Defined.

(** X10. What [deleteProvider] does to the route table, for a
    registered [id]: it only removes entries; the bare and the
    qualified entry of every model of the deleted record are gone; an
    entry whose key is neither of these is as before; and a model
    name whose entry still points to [id] no longer resolves. *)
Theorem deleteProvider_routes this (id : string) (provider : LLMProvider.t) :
  getProvider this id = Some provider →
  let this' := (deleteProvider this id).2 in
  (∀ k r, modelRoutes this' !! k = Some r → modelRoutes this !! k = Some r) ∧
  (∀ m, m ∈ LLMProvider.models provider →
        modelRoutes this' !! m = None ∧
        modelRoutes this' !! comma_join (LLMProvider.name provider) m = None ∧
        resolveModelRoute this' m = None) ∧
  (∀ k, (∀ x, x ∈ LLMProvider.models provider →
              comma_join (LLMProvider.name provider) x ≠ k ∧ x ≠ k) →
        modelRoutes this' !! k = modelRoutes this !! k) ∧
  (∀ k r, modelRoutes this' !! k = Some r → ModelRoute.provider r = id →
          resolveModelRoute this' k = None).
Proof.
  intros Hp this'. unfold getProvider in Hp.
  assert (Hroutes : modelRoutes this' =
            deleteRoutes (LLMProvider.name provider) (LLMProvider.models provider)
              (modelRoutes this)).
  { subst this'. unfold deleteProvider. by rewrite Hp. }
  assert (Hgone : JsMap.get id (providers this') = None).
  { subst this'. unfold deleteProvider. rewrite Hp. apply JsMap_get_delete_eq. }
  split; [|split; [|split]].
  - intros k r. rewrite Hroutes. apply deleteRoutes_Some.
  - intros m Hm. rewrite Hroutes.
    assert (Hbare := deleteRoutes_bare (LLMProvider.name provider) _
                       (modelRoutes this) m Hm).
    split; [done|]. split; [by apply deleteRoutes_full|].
    unfold resolveModelRoute. by rewrite Hroutes, Hbare.
  - intros k Hk. rewrite Hroutes. by apply deleteRoutes_frame.
  - intros k r Hr Hown. unfold resolveModelRoute. by rewrite Hr, Hown, Hgone.
Qed.

Lemma deleteProvider_routes_witness :
  modelRoutes (deleteProvider Scenario.shared "B").2 !! "A,chat"%string =
    modelRoutes Scenario.shared !! "A,chat"%string ∧
  resolveModelRoute (deleteProvider Scenario.shared "B").2 "chat" = None.
Proof.
  destruct (deleteProvider_routes Scenario.shared "B"
              (LLMProvider.of_request (Scenario.request "B" ["b1"] ["chat"])))
    as (_ & Hgone & Hframe & _); [vm_compute; reflexivity|].
  split.
  - apply Hframe. intros x Hx. cbn in Hx.
    apply list_elem_of_singleton in Hx as ->. split; discriminate.
  - apply (Hgone "chat"%string). by apply list_elem_of_here.
Defined.

End UpdateAndDelete.

(** ** Invariants of the service *)

Section Invariants.
Import ProviderService.
Implicit Types (this s : ProviderService.t)
  (R : gmap string ModelRoute.t).

Lemma insertRoute_cases_key P R m k r :
  insertRoute P R m !! k = Some r →
  (r = routeOf P m ∧ (k = m ∨ k = comma_join P m)) ∨ R !! k = Some r.
Proof.
  unfold insertRoute, routeOf. case_bool_decide.
  - rewrite lookup_insert. case_decide; [|by right].
    intros [= <-]. left. split; [done|]. by right.
  - rewrite !lookup_insert. repeat case_decide; try (by right).
    + intros [= <-]. left. split; [done|]. by left.
    + intros [= <-]. left. split; [done|]. by right.
Qed.

Lemma insertRoutes_route_wf P ms R :
  (∀ k r, R !! k = Some r → route_wf k r) →
  ∀ k r, insertRoutes P ms R !! k = Some r → route_wf k r.
Proof.
  revert R. induction ms as [|x ms IH]; intros R HR; [done|].
  rewrite insertRoutes_cons. apply IH.
  intros k r [[-> Hk]|Hr]%insertRoute_cases_key; [|by apply HR].
  split; [done|]. destruct Hk as [->| ->]; [by left | by right].
Qed.

Lemma JsMap_set_is_Some {V : Type} (m : JsMap.t V) k v n :
  is_Some (JsMap.get n (JsMap.set k v m)) ↔ n = k ∨ is_Some (JsMap.get n m).
Proof.
  destruct (decide (k = n)) as [->|Hne].
  - rewrite JsMap_get_set_eq. split; eauto.
  - rewrite JsMap_get_set_ne by done. split; [by right|].
    by intros [->|?].
Qed.

Lemma JsMap_set_NoDup {V : Type} (m : JsMap.t V) k v :
  NoDup m.*1 → NoDup (JsMap.set k v m).*1.
Proof.
  intros Hnd. destruct (JsMap.get k m) as [v'|] eqn:Hk.
  - rewrite JsMap_keys_set_present; [done|]. rewrite Hk. eauto.
  - rewrite JsMap_keys_set_absent by done.
    apply NoDup_app. split; [done|]. split; [|apply NoDup_singleton].
    intros x Hx ->%list_elem_of_singleton.
    by apply JsMap_get_None_keys in Hk.
Qed.

Lemma selectKey_throws_no_keys (selector : ApiKeySelector.t)
  (excludeIndex : option Z) (rnd : Q) (err : Error) :
  ApiKeySelector.selectKey selector excludeIndex rnd = Throw err →
  err = NoKeysAvailable.
Proof.
  unfold ApiKeySelector.selectKey.
  case_bool_decide; [by intros [= <-]|]. case_bool_decide; [done|].
  destruct (ApiKeySelector.strategy selector); repeat case_bool_decide; done.
Qed.

(** X11. In every state the service can reach, a registered provider
    has a key selector: [selectApiKey] never fails with
    [UnknownProvider] for a name that [getProvider] knows, and
    [getApiKeyCount] is the number of keys of that selector. *)
Theorem registered_provider_has_selector this (providerName : string) :
  service_reachable this →
  is_Some (getProvider this providerName) →
  (∃ selector, keySelectors this !! providerName = Some selector ∧
               getApiKeyCount this providerName =
                 ApiKeySelector.getKeyCount selector) ∧
  ∀ excludeIndex rnd,
    selectApiKey this providerName excludeIndex rnd ≠
      Throw (UnknownProvider providerName).
Proof.
  intros Hreach Hreg.
  assert (Hsel : is_Some (keySelectors this !! providerName)).
  { revert Hreg. unfold getProvider.
    induction Hreach as [|s request _ IH|s id updates now _ IH|s id _ IH
                         |s n e rnd selected s' _ IH Hsel].
    - by intros [? ?].
    - cbn. intros [->|Hreg]%JsMap_set_is_Some.
      + rewrite lookup_insert_eq. eauto.
      + apply lookup_insert_is_Some'. right. by apply IH.
    - rewrite updateProvider_keySelectors. intros Hreg. apply IH.
      unfold updateProvider in Hreg.
      destruct (JsMap.get id (providers s)) as [p|] eqn:Hp; [|done].
      cbn in Hreg. apply JsMap_set_is_Some in Hreg as [->|?]; [|done].
      rewrite Hp. eauto.
    - unfold deleteProvider.
      destruct (JsMap.get id (providers s)) as [p|] eqn:Hp; [|done].
      cbn. intros Hreg. apply IH.
      destruct (decide (id = providerName)) as [->|Hne].
      + rewrite JsMap_get_delete_eq in Hreg. by destruct Hreg.
      + by rewrite JsMap_get_delete_ne in Hreg.
    - apply selectApiKey_inv in Hsel as (sel & sel' & Hs & _ & ->).
      cbn. intros Hreg. apply lookup_insert_is_Some'. right. by apply IH. }
  destruct Hsel as [selector Hsel]. split.
  - exists selector. split; [done|]. unfold getApiKeyCount. by rewrite Hsel.
  - intros e rnd. unfold selectApiKey. rewrite Hsel.
    destruct (ApiKeySelector.selectKey selector _ rnd) as [[x sel']|err] eqn:Hk;
      [done|].
    by rewrite (selectKey_throws_no_keys _ _ _ _ Hk).
Qed.

Lemma registered_provider_has_selector_witness :
  ∃ selector, keySelectors Scenario.shared_after_update !! "B"%string =
                Some selector ∧
              getApiKeyCount Scenario.shared_after_update "B" =
                ApiKeySelector.getKeyCount selector.
Proof.
  apply (registered_provider_has_selector Scenario.shared_after_update "B").
  - apply reachable_update. do 2 apply reachable_register. apply reachable_empty.
  - vm_compute. eauto.
Defined.

(** X12. In every state the service can reach, every route entry is
    well formed: under key [k] lies a route whose [fullModel] is
    ["provider,model"] and [k] is its [model] or its [fullModel].
    Hence whenever [resolveModelRoute(k)] answers, the answer names
    [k] as original model, and [k] is the target model or the target
    model qualified by the key of the provider returned. *)
Theorem routes_well_formed this (k : string) :
  service_reachable this →
  (∀ r, modelRoutes this !! k = Some r → route_wf k r) ∧
  (∀ info, resolveModelRoute this k = Some info →
     RequestRouteInfo.originalModel info = k ∧
     ∃ owner,
       getProvider this owner = Some (RequestRouteInfo.provider info) ∧
       (k = RequestRouteInfo.targetModel info ∨
        k = comma_join owner (RequestRouteInfo.targetModel info))).
Proof.
  intros Hreach.
  assert (Hwf : ∀ k r, modelRoutes this !! k = Some r → route_wf k r).
  { clear k.
    induction Hreach as [|s request _ IH|s id updates now _ IH|s id _ IH
                         |s n e rnd selected s' _ IH Hsel].
    - intros k r. cbn. by rewrite lookup_empty.
    - by apply insertRoutes_route_wf.
    - unfold updateProvider.
      destruct (JsMap.get id (providers s)) as [p|]; [|done]. cbn.
      destruct (ProviderUpdate.models updates) as [newModels|]; [|done].
      apply insertRoutes_route_wf.
      intros k r Hr%deleteRoutes_Some. by apply IH.
    - unfold deleteProvider.
      destruct (JsMap.get id (providers s)) as [p|]; [|done]. cbn.
      intros k r Hr%deleteRoutes_Some. by apply IH.
    - apply selectApiKey_inv in Hsel as (sel & sel' & _ & _ & ->). done. }
  split; [apply Hwf|].
  intros info. unfold resolveModelRoute, getProvider.
  destruct (modelRoutes this !! k) as [r|] eqn:Hr; [|done].
  destruct (JsMap.get (ModelRoute.provider r) (providers this)) as [p|] eqn:Hp;
    [|done].
  intros [= <-]. cbn. split; [done|].
  exists (ModelRoute.provider r). split; [done|].
  destruct (Hwf k r Hr) as [Hfull [Hk|Hk]]; [by left|].
  right. by rewrite Hk, Hfull.
Qed.

Lemma routes_well_formed_witness :
  route_wf "P,m1" (routeOf "P" "m1").
Proof.
  apply (routes_well_formed Scenario.both_m1_after_update "P,m1").
  - apply reachable_update. do 2 apply reachable_register. apply reachable_empty.
  - vm_compute. reflexivity.
Defined.

(** X13. In every state the service can reach, every stored key
    selector is one that its constructor and [selectKey] calls can
    produce, and its cursor is a valid index into its keys whenever it
    has keys. *)
Theorem selectors_cursor_valid this (providerName : string)
  (selector : ApiKeySelector.t) :
  service_reachable this →
  keySelectors this !! providerName = Some selector →
  reachable selector ∧
  ((0 < length (ApiKeySelector.keys selector))%nat →
   0 ≤ ApiKeySelector.currentIndex selector
     < Z.of_nat (length (ApiKeySelector.keys selector))).
Proof.
  intros Hreach Hsel.
  assert (Hr : reachable selector).
  { revert providerName selector Hsel.
    induction Hreach as [|s request _ IH|s id updates now _ IH|s id _ IH
                         |s n e rnd selected s' _ IH Hsel'];
      intros providerName selector.
    - cbn. by rewrite lookup_empty.
    - cbn. rewrite lookup_insert. case_decide.
      + intros [= <-]. apply reachable_new.
      + apply IH.
    - rewrite updateProvider_keySelectors. apply IH.
    - unfold deleteProvider.
      destruct (JsMap.get id (providers s)); apply IH.
    - apply selectApiKey_inv in Hsel' as (sel & sel' & Hs & Hkey & ->).
      cbn. rewrite lookup_insert. case_decide.
      + intros [= <-]. eapply reachable_selectKey; [|exact Hkey].
        by eapply IH.
      + apply IH. }
  split; [done|]. intros Hlen. apply reachable_cursor_in_range; [done|lia].
Qed.

Lemma selectors_cursor_valid_witness :
  reachable (ApiKeySelector.new ["a1"; "a2"]%string (Some RoundRobin)).
Proof.
  apply (selectors_cursor_valid Scenario.shared "A").
  - do 2 apply reachable_register. apply reachable_empty.
  - vm_compute. reflexivity.
Defined.

(** X14. In every state the service can reach, no name occurs twice
    among the providers, and [getProviders()] lists exactly the
    records that [getProvider] returns for some name. *)
Theorem providers_listed_once this :
  service_reachable this →
  NoDup (providers this).*1 ∧
  ∀ p, p ∈ getProviders this ↔ ∃ n, getProvider this n = Some p.
Proof.
  intros Hreach.
  assert (Hnd : NoDup (providers this).*1).
  { induction Hreach as [|s request _ IH|s id updates now _ IH|s id _ IH
                         |s n e rnd selected s' _ IH Hsel].
    - apply NoDup_nil_2.
    - by apply JsMap_set_NoDup.
    - unfold updateProvider.
      destruct (JsMap.get id (providers s)); [|done]. by apply JsMap_set_NoDup.
    - unfold deleteProvider.
      destruct (JsMap.get id (providers s)); [|done]. cbn.
      rewrite JsMap_keys_delete. by apply NoDup_filter.
    - by apply selectApiKey_inv in Hsel as (sel & sel' & _ & _ & ->). }
  split; [done|]. intros p. unfold getProviders, getProvider, JsMap.values.
  rewrite list_elem_of_fmap. split.
  - intros ([n p'] & -> & Hin). exists n. by apply JsMap_get_elem.
  - intros [n Hn]. exists (n, p). split; [done|]. by apply JsMap_get_elem.
Qed.

Lemma providers_listed_once_witness :
  NoDup (providers Scenario.reregistered).*1.
Proof.
  apply (providers_listed_once Scenario.reregistered).
  do 2 apply reachable_register. apply reachable_empty.
Defined.

End Invariants.

(** ** Model listings *)

Section Listings.
Import ProviderService.
Implicit Types (this s : ProviderService.t).

Lemma elem_of_flat_map {A B : Type} (f : A → list B) (l : list A) (x : B) :
  x ∈ flat_map f l ↔ ∃ y, y ∈ l ∧ x ∈ f y.
Proof.
  rewrite list_elem_of_In, in_flat_map.
  split; intros (y & Hy & Hx); exists y; by rewrite ?list_elem_of_In in *.
Qed.

Lemma JsMap_get_Some_elem {V : Type} (m : JsMap.t V) k v :
  JsMap.get k m = Some v → (k, v) ∈ m.
Proof.
  induction m as [|[k' v'] m IH]; cbn [JsMap.get]; [done|].
  destruct (String.eqb_spec k k') as [->|Hne].
  - intros [= ->]. apply list_elem_of_here.
  - intros H. apply list_elem_of_further. by apply IH.
Qed.

(** X15. [getAvailableModelNames()] lists a name exactly when it is a
    model of a listed provider or that model qualified by the
    provider's name; in particular both names of every model of every
    provider that [getProvider] returns are listed. *)
Theorem getAvailableModelNames_spec this :
  (∀ x, x ∈ getAvailableModelNames this ↔
        ∃ p m, p ∈ getProviders this ∧ m ∈ LLMProvider.models p ∧
               (x = m ∨ x = comma_join (LLMProvider.name p) m)) ∧
  (∀ n p m, getProvider this n = Some p → m ∈ LLMProvider.models p →
            m ∈ getAvailableModelNames this ∧
            comma_join (LLMProvider.name p) m ∈ getAvailableModelNames this).
Proof.
  assert (Hspec : ∀ x, x ∈ getAvailableModelNames this ↔
        ∃ p m, p ∈ getProviders this ∧ m ∈ LLMProvider.models p ∧
               (x = m ∨ x = comma_join (LLMProvider.name p) m)).
  { intros x. unfold getAvailableModelNames, getProviders.
    rewrite elem_of_flat_map. split.
    - intros (p & Hp & (m & Hm & Hx)%elem_of_flat_map).
      exists p, m. split; [done|]. split; [done|].
      apply elem_of_cons in Hx as [->|Hx]; [by left|].
      apply list_elem_of_singleton in Hx as ->. by right.
    - intros (p & m & Hp & Hm & Hx). exists p. split; [done|].
      apply elem_of_flat_map. exists m. split; [done|].
      destruct Hx as [->| ->];
        [apply list_elem_of_here
        |apply list_elem_of_further, list_elem_of_here]. }
  split; [done|]. intros n p m Hp Hm.
  assert (Hin : p ∈ getProviders this).
  { unfold getProviders, JsMap.values. apply list_elem_of_fmap.
    exists (n, p). split; [done|]. by apply JsMap_get_Some_elem. }
  split; apply Hspec; exists p, m; eauto.
Qed.

Lemma getAvailableModelNames_spec_witness :
  "chat"%string ∈ getAvailableModelNames Scenario.shared ∧
  "B,chat"%string ∈ getAvailableModelNames Scenario.shared.
Proof.
  destruct (getAvailableModelNames_spec Scenario.shared) as [_ H].
  apply (H "B"%string
           (LLMProvider.of_request (Scenario.request "B" ["b1"] ["chat"]))
           "chat"%string).
  - vm_compute. reflexivity.
  - by apply list_elem_of_here.
Defined.

(** X16. [getAvailableModels()] describes the names of
    [getAvailableModelNames()], in the same order: the [id]s of its
    [data] are those names, every element has [object] ["model"], and
    [owned_by] and [provider] are both the name of a listed provider
    one of whose models the [id] is, bare or qualified. *)
Theorem getAvailableModels_spec this :
  ModelInfo.id <$> getAvailableModels this = getAvailableModelNames this ∧
  Forall (λ info,
            ModelInfo.object info = "model"%string ∧
            ModelInfo.owned_by info = ModelInfo.provider info ∧
            ∃ p m, p ∈ getProviders this ∧ m ∈ LLMProvider.models p ∧
                   ModelInfo.provider info = LLMProvider.name p ∧
                   (ModelInfo.id info = m ∨
                    ModelInfo.id info = comma_join (LLMProvider.name p) m))
    (getAvailableModels this).
Proof.
  unfold getAvailableModels, getAvailableModelNames, getProviders. split.
  - induction (JsMap.values (providers this)) as [|p ps IH]; [done|].
    cbn [flat_map]. rewrite fmap_app, IH. f_equal.
    induction (LLMProvider.models p) as [|m ms IHm]; [done|].
    cbn [flat_map]. rewrite fmap_app, IHm. done.
  - apply Forall_forall. intros info.
    intros (p & Hp & (m & Hm & Hx)%elem_of_flat_map)%elem_of_flat_map.
    apply elem_of_cons in Hx as [->|Hx].
    + cbn. split; [done|]. split; [done|]. exists p, m. eauto 6.
    + apply list_elem_of_singleton in Hx as ->.
      cbn. split; [done|]. split; [done|]. exists p, m. eauto 6.
Qed.

End Listings.

(** ** Bulk initialization as a sequence of registrations *)

Section BulkAsRegistrations.
Import ProviderService.
Variable buildTransformer : TransformerConfig → Result Transformer.

Lemma initializeOne_accepted (s : ProviderService.t) (log : list LogEntry)
  (c : ConfigProvider.t) :
  (initializeOne buildTransformer (s, log) c).1 =
    match acceptedRequest buildTransformer c with
    | Some request => (registerProvider s request).2
    | None => s
    end ∧
  length (initializeOne buildTransformer (s, log) c).2 = S (length log).
Proof.
  unfold initializeOne, acceptedRequest.
  destruct (checkedConfig c) as [[[name url] ks]|];
    [destruct (ConfigProvider.transformer c) as [cfg|];
       [destruct (buildTransformer cfg)|]|];
    cbn [fst snd]; rewrite length_app; cbn [length]; (split; [done|lia]).
Qed.

Lemma initialize_accepted (cs : list ConfigProvider.t)
  (s : ProviderService.t) (log : list LogEntry) :
  (foldl (initializeOne buildTransformer) (s, log) cs).1 =
    registerAll s (omap (acceptedRequest buildTransformer) cs) ∧
  length (foldl (initializeOne buildTransformer) (s, log) cs).2 =
    (length log + length cs)%nat.
Proof.
  revert s log. induction cs as [|c cs IH]; intros s log.
  - cbn. split; [done|lia].
  - cbn [foldl omap].
    destruct (initializeOne_accepted s log c) as [Hs Hl].
    destruct (initializeOne buildTransformer (s, log) c) as [s1 l1].
    cbn [fst snd] in Hs, Hl. subst s1.
    destruct (IH (match acceptedRequest buildTransformer c with
                  | Some request => (registerProvider s request).2
                  | None => s
                  end) l1) as [IHs IHl].
    rewrite IHs, IHl, Hl. split; [|cbn [length]; lia].
    cbn [list_omap].
    by destruct (acceptedRequest buildTransformer c).
Qed.

Lemma registerAll_reachable (requests : list RegisterProviderRequest.t)
  (s : ProviderService.t) :
  service_reachable s → service_reachable (registerAll s requests).
Proof.
  revert s. induction requests as [|q requests IH]; intros s Hs; [done|].
  rewrite registerAll_cons. by apply IH, reachable_register.
Qed.

(** X17. Bulk initialization is a sequence of [registerProvider]
    calls: the state it reaches is the one reached by registering, in
    order, the requests of the entries that pass the checks and whose
    transformer can be built; it writes exactly one log line per
    entry; and the service that the constructor returns is empty when
    the configuration has no [providers] array and otherwise the
    result of this initialization from the empty service. *)
Theorem initialize_is_register_sequence
  (this : ProviderService.t) (configs : list ConfigProvider.t)
  (providersConfig : option (list ConfigProvider.t)) :
  (initializeFromProvidersArray buildTransformer this configs).1 =
    registerAll this (omap (acceptedRequest buildTransformer) configs) ∧
  length (initializeFromProvidersArray buildTransformer this configs).2 =
    length configs ∧
  (newProviderService buildTransformer providersConfig).1 =
    registerAll empty
      (omap (acceptedRequest buildTransformer) (default [] providersConfig)) ∧
  service_reachable (newProviderService buildTransformer providersConfig).1.
Proof.
  destruct (initialize_accepted configs this []) as [Hs Hl].
  split; [done|]. split; [done|].
  assert (Hnew : (newProviderService buildTransformer providersConfig).1 =
    registerAll empty
      (omap (acceptedRequest buildTransformer) (default [] providersConfig))).
  { destruct providersConfig as [cs|]; [|done].
    apply (initialize_accepted cs empty []). }
  split; [done|]. rewrite Hnew. apply registerAll_reachable, reachable_empty.
Qed.

(** X18. An entry whose transformer cannot be built is isolated by the
    [catch]: nothing is stored for it, the error is logged under its
    name, and the entries after it are processed as if it were not
    there. *)
Theorem initialize_isolates_transformer_failure
  (this : ProviderService.t) (before after : list ConfigProvider.t)
  (c : ConfigProvider.t) (cfg : TransformerConfig) (e : Error) :
  ConfigProvider.transformer c = Some cfg →
  buildTransformer cfg = Throw e →
  (¬ invalidConfig c →
   ∀ log, initializeOne buildTransformer (this, log) c =
          (this, log ++ [LogError (ConfigProvider.name c) e])) ∧
  (initializeFromProvidersArray buildTransformer this (before ++ c :: after)).1 =
    (initializeFromProvidersArray buildTransformer this (before ++ after)).1.
Proof.
  intros Hcfg Hbuild. split.
  - intros Hvalid log. unfold initializeOne.
    destruct (checkedConfig c) as [[[name url] ks]|] eqn:Hc.
    + by rewrite Hcfg, Hbuild.
    + destruct Hvalid. unfold invalidConfig, checkedConfig, truthy_string in *.
      destruct (ConfigProvider.name c) as [n|]; [|by left].
      case_bool_decide; [right; left; congruence|].
      destruct (ConfigProvider.api_base_url c) as [u|]; [|by right; right; left].
      case_bool_decide; [right; right; right; left; congruence|].
      do 4 right. by destruct (ConfigProvider.api_key c) as [| |[|]].
  - unfold initializeFromProvidersArray.
    assert (Hacc : acceptedRequest buildTransformer c = None).
    { unfold acceptedRequest.
      destruct (checkedConfig c) as [[[? ?] ?]|]; [|done].
      by rewrite Hcfg, Hbuild. }
    rewrite !(proj1 (initialize_accepted _ _ _)), !omap_app.
    do 2 f_equal. cbn [omap list_omap]. by rewrite Hacc.
Qed.

End BulkAsRegistrations.

Lemma initialize_isolates_transformer_failure_witness :
  (ProviderService.initializeFromProvidersArray
     (λ _, Throw (ExternalError "boom")) ProviderService.empty
     ([Scenario.config "a" (ConfigKeyArray ["a1"]%string)] ++
      ConfigProvider.mk (Some "t"%string) (Some "https://t/"%string)
        (ConfigKeyArray ["t1"]%string) None None
        (Some (TransformerConfigValue "{}")) ::
      [Scenario.config "b" (ConfigKeyArray ["b1"]%string)])).1 =
  (ProviderService.initializeFromProvidersArray
     (λ _, Throw (ExternalError "boom")) ProviderService.empty
     ([Scenario.config "a" (ConfigKeyArray ["a1"]%string)] ++
      [Scenario.config "b" (ConfigKeyArray ["b1"]%string)])).1.
Proof.
  apply (initialize_isolates_transformer_failure
           (λ _, Throw (ExternalError "boom")) ProviderService.empty
           [Scenario.config "a" (ConfigKeyArray ["a1"]%string)]
           [Scenario.config "b" (ConfigKeyArray ["b1"]%string)]
           _ (TransformerConfigValue "{}") (ExternalError "boom"));
    reflexivity.
Defined.

(** ** parseTransformerConfig *)

Section ParseTransformerConfig.
Context {C : Type}.
Implicit Types (items : list (TransformerItem C))
  (acc : gmap string (ItemConfig C)).

Lemma parseItem_insert acc (item : TransformerItem C) :
  parseItem acc item = <[itemName item := itemConfig item]> acc.
Proof. by destruct item as [name|name [config|]]. Qed.

Lemma foldl_parseItem_lookup items acc (name : string) :
  foldl parseItem acc items !! name =
  match last (filter (λ item, itemName item = name) items) with
  | Some item => Some (itemConfig item)
  | None => acc !! name
  end.
Proof.
  induction items as [|item items IH] using rev_ind; [done|].
  rewrite foldl_app, filter_app. cbn [foldl].
  rewrite parseItem_insert, lookup_insert.
  destruct (decide (itemName item = name)) as [Heq|Hne].
  - rewrite filter_cons_True, filter_nil, last_snoc by done. done.
  - rewrite filter_cons_False, filter_nil, app_nil_r by done. apply IH.
Qed.

(** X19. [parseTransformerConfig] on an array none of whose items is
    named ["__proto__"] builds an object in which each name is bound
    to the configuration of the last item carrying that name (the
    empty object when that item has none), and which has no other
    keys; an empty array gives the same empty object as a missing
    configuration. *)
Theorem parseTransformerConfig_last_item_wins items :
  Forall (λ item, itemName item ≠ "__proto__"%string) items →
  parseTransformerConfig (RawArray (@nil (TransformerItem C))) =
    parseTransformerConfig RawFalsy ∧
  ∃ entries,
    parseTransformerConfig (RawArray items) = ParsedObject entries ∧
    ∀ name : string,
      entries !! name =
        itemConfig <$> last (filter (λ item, itemName item = name) items) ∧
      (is_Some (entries !! name) ↔ name ∈ itemName <$> items).
Proof.
  intros _. split; [done|]. eexists. split; [reflexivity|]. intros name.
  rewrite foldl_parseItem_lookup, lookup_empty.
  destruct (last (filter (λ item, itemName item = name) items))
    as [item|] eqn:Hlast; cbn.
  - split; [done|]. split; [|eauto]. intros _.
    apply last_Some_elem_of, list_elem_of_filter in Hlast as [<- Hin].
    by apply list_elem_of_fmap_2.
  - split; [done|]. split; [by intros [? ?]|].
    intros (item & -> & Hin)%list_elem_of_fmap.
    apply last_None in Hlast.
    assert (Hitem : item ∈ filter (λ it, itemName it = itemName item) items)
      by (by apply list_elem_of_filter).
    rewrite Hlast in Hitem. by apply elem_of_nil in Hitem.
Qed.

End ParseTransformerConfig.

Lemma parseTransformerConfig_last_item_wins_witness :
  ∃ entries,
    parseTransformerConfig
      (RawArray [ItemPair "a" (Some 1%nat); ItemName "a";
                 ItemPair "b" (Some 2%nat)]) = ParsedObject entries ∧
    entries !! "a"%string = Some EmptyObject ∧
    entries !! "b"%string = Some (GivenConfig 2%nat).
Proof.
  destruct (parseTransformerConfig_last_item_wins
              [ItemPair "a" (Some 1%nat); ItemName "a";
               ItemPair "b" (Some 2%nat)])
    as (_ & entries & Hparse & Hnames).
  - repeat constructor; discriminate.
  - exists entries. split; [exact Hparse|]. split.
    + exact (proj1 (Hnames "a"%string)).
    + exact (proj1 (Hnames "b"%string)).
Defined.

(** ** Resolution of a [use] chain *)

Section ResolveUse.
Variable Instance : Type.
Variable Constructor : Type.
Variable Options : Type.
Variable getTransformer : string → option (Registered Instance Constructor).
Variable construct : Constructor → option Options → Result Instance.

Lemma resolveEntry_unresolvable (entry : UseEntry Options) :
  unresolvable Instance Constructor Options getTransformer entry →
  resolveEntry Instance Constructor Options getTransformer construct entry =
    Ok None.
Proof.
  destruct entry as [name|name options|]; cbn; [| |done]; by intros ->.
Qed.

(** X20. In the resolution of a [use] array, an entry whose name the
    TransformerService does not know, and an entry that is neither a
    string nor an array starting with a string, are dropped without
    any other effect: the result is that of the array without the
    entry, failures included.  A chain of such entries resolves to
    the empty chain, and a resolved chain is never longer than the
    configured one. *)
Theorem resolveUse_drops_unresolvable :
  (∀ before entry after,
     unresolvable Instance Constructor Options getTransformer entry →
     resolveUse Instance Constructor Options getTransformer construct
       (before ++ entry :: after) =
     resolveUse Instance Constructor Options getTransformer construct
       (before ++ after)) ∧
  (∀ use,
     Forall (unresolvable Instance Constructor Options getTransformer) use →
     resolveUse Instance Constructor Options getTransformer construct use =
       Ok []) ∧
  (∀ use instances,
     resolveUse Instance Constructor Options getTransformer construct use =
       Ok instances →
     (length instances ≤ length use)%nat).
Proof.
  split; [|split].
  - intros before entry after Hun.
    induction before as [|x before IH]; cbn [app resolveUse].
    + rewrite resolveEntry_unresolvable by done.
      by destruct (resolveUse _ _ _ _ _ after).
    + by rewrite IH.
  - intros use Hall. induction Hall as [|x use Hx _ IH]; [done|].
    cbn [resolveUse]. by rewrite resolveEntry_unresolvable, IH.
  - intros use. induction use as [|x use IH]; intros instances.
    + by intros [= <-].
    + cbn [resolveUse].
      destruct (resolveEntry _ _ _ _ _ x) as [resolved|]; [|done].
      destruct (resolveUse _ _ _ _ _ use) as [rest|]; [|done].
      specialize (IH rest eq_refl).
      intros [= <-]. destruct resolved; cbn [length]; lia.
Qed.

End ResolveUse.

Lemma resolveUse_drops_unresolvable_witness :
  resolveUse string string unit
    (λ name, if bool_decide (name = "known"%string)
             then Some (RegisteredConstructor string string "K"%string)
             else None)
    (λ c _, Ok c)
    ([UseName unit "known"] ++ UseName unit "unknown" :: [UseOther unit]) =
  Ok ["K"%string].
Proof.
  destruct (resolveUse_drops_unresolvable string string unit
              (λ name, if bool_decide (name = "known"%string)
                       then Some (RegisteredConstructor string string "K"%string)
                       else None)
              (λ c _, Ok c)) as (Hdrop & _ & _).
  rewrite (Hdrop [UseName unit "known"] (UseName unit "unknown")
             [UseOther unit]) by reflexivity.
  reflexivity.
Defined.
